(** * BuddySystem: a power-of-two buddy allocator

    Shallow embedding of [s92066684_Miniproject_BuddySystem.py] (class
    [BuddySystem]) and the verification of its bookkeeping.

    Python integers are unbounded, so they are [Z]; [&] and [^] are
    [Z.land] and [Z.lxor], [//] is [Z.div] (both round towards minus
    infinity).  The two dictionaries of the class are finite maps:
    [free_list : gmap Z (list Z)] (block size to list of addresses) and
    [allocated : gmap Z Z] (address to block size). *)

From Stdlib Require Import ZArith Lia.
From stdpp Require Import gmap strings list fin_maps sorting pretty.

Local Open Scope Z_scope.

(** * The program

    The three [while] loops are functions with an iteration budget
    ([fuel]); a loop that exhausts its budget yields [None], which the
    operations report as [OutOfFuel].  The budgets the operations pass
    always suffice (lemmas [allocate_outcome] and [free_outcome]). *)

(** ** Exceptions and results *)

(** The exceptions the class can raise.  Every explicit [raise] of the
    source is a [ValueError] carrying a message; [list.pop] on an empty list
    raises [IndexError]. *)
Inductive exn : Type :=
  | ValueError (msg : string)
  | IndexError (msg : string).

(** The messages of the five [raise] statements, named after the error
    kinds they stand for. *)
Definition NotPowerOfTwo : exn :=
  ValueError "Total memory size must be a power of 2.".
Definition RequestTooLarge_allocate : exn :=
  ValueError "Requested size exceeds total memory.".
Definition NoSuitableBlock : exn :=
  ValueError "No suitable block available for allocation.".
Definition RequestTooLarge_free : exn :=
  ValueError "Block size exceeds total memory.".
Definition InvalidFree : exn :=
  ValueError "Invalid free operation. Address and size do not match.".

(** What a call does: it returns a value, raises, or (in the model only)
    exhausts the iteration budget given to one of its [while] loops. *)
Inductive outcome (A : Type) : Type :=
  | Return (a : A)
  | Raise (e : exn)
  | OutOfFuel.
Arguments Return {A} a.
Arguments Raise {A} e.
Arguments OutOfFuel {A}.

(** ** The allocator state *)

Record BuddySystem : Type := mkBuddySystem {
  total_memory : Z;
  free_list : gmap Z (list Z);
  allocated : gmap Z Z
}.

(** [__init__]: rejects [total_memory] when
    [total_memory & (total_memory - 1) != 0]. *)
Definition construct (total_memory : Z) : outcome BuddySystem :=
  if bool_decide (Z.land total_memory (total_memory - 1) ≠ 0)
  then Raise NotPowerOfTwo
  else Return (mkBuddySystem total_memory {[ total_memory := [0] ]} ∅).

(** ** Size rounding *)

(** The loop [while power < size: power *= 2]. *)
Fixpoint next_power_of_two_loop (fuel : nat) (power size : Z) : option Z :=
  if bool_decide (power < size) then
    match fuel with
    | O => None
    | S fuel' => next_power_of_two_loop fuel' (power * 2) size
    end
  else Some power.

Definition next_power_of_two (size : Z) : option Z :=
  if bool_decide (Z.land size (size - 1) = 0) then Some size
  else next_power_of_two_loop (Z.to_nat size) 1 size.

(** ** Allocate *)

(** [sorted(self.free_list)]: the keys in ascending order. *)
Definition sorted_keys (fl : gmap Z (list Z)) : list Z :=
  merge_sort Z.le (fst <$> map_to_list fl).

(** The test of the [for] loop:
    [block_size >= size and self.free_list[block_size]]. *)
Definition suitable (fl : gmap Z (list Z)) (size block_size : Z) : Prop :=
  size ≤ block_size ∧ fl !!! block_size ≠ [].

Global Instance suitable_dec fl size block_size :
  Decision (suitable fl size block_size).
Proof. unfold suitable. apply _. Defined.

(** [self.free_list.setdefault(block_size, []).append(address)]. *)
Definition push (block_size address : Z) (fl : gmap Z (list Z))
  : gmap Z (list Z) :=
  <[ block_size := fl !!! block_size ++ [address] ]> fl.

(** The loop that splits a block down to the requested size:
    [while block_size > size: block_size //= 2; ...append(address + block_size)]. *)
Fixpoint split (fuel : nat) (block_size size address : Z)
    (fl : gmap Z (list Z)) : option (gmap Z (list Z)) :=
  if bool_decide (block_size > size) then
    match fuel with
    | O => None
    | S fuel' =>
        let block_size := block_size `div` 2 in
        let buddy_address := address + block_size in
        split fuel' block_size size address (push block_size buddy_address fl)
    end
  else Some fl.

Definition allocate (self : BuddySystem) (size : Z)
  : outcome Z * BuddySystem :=
  match next_power_of_two size with
  | None => (OutOfFuel, self)
  | Some size =>
      if bool_decide (size > total_memory self)
      then (Raise RequestTooLarge_allocate, self)
      else
        match list_find (suitable (free_list self) size)
                (sorted_keys (free_list self)) with
        | Some (_, block_size) =>
            match free_list self !!! block_size with
            | [] => (Raise (IndexError "pop from empty list"), self)
            | address :: rest =>
                let fl := <[ block_size := rest ]> (free_list self) in
                match split (Z.to_nat block_size) block_size size address fl with
                | None => (OutOfFuel, self)
                | Some fl =>
                    (Return address,
                     mkBuddySystem (total_memory self) fl
                       (<[ address := size ]> (allocated self)))
                end
            end
        | None => (Raise NoSuitableBlock, self)
        end
  end.

(** ** Free *)

(** [list.remove(x)]: drops the first occurrence of [x]. *)
Fixpoint remove_first (x : Z) (l : list Z) : list Z :=
  match l with
  | [] => []
  | y :: l' => if bool_decide (y = x) then l' else y :: remove_first x l'
  end.

(** The coalescing loop; it returns the final [size] and [address] together
    with the free list. *)
Fixpoint coalesce (fuel : nat) (total size address : Z)
    (fl : gmap Z (list Z)) : option (Z * Z * gmap Z (list Z)) :=
  if bool_decide (size < total) then
    let buddy_address := Z.lxor address size in
    if bool_decide (buddy_address ∈ fl !!! size) then
      match fuel with
      | O => None
      | S fuel' =>
          coalesce fuel' total (size * 2) (Z.min address buddy_address)
            (<[ size := remove_first buddy_address (fl !!! size) ]> fl)
      end
    else Some (size, address, fl)
  else Some (size, address, fl).

Definition free (self : BuddySystem) (address size : Z)
  : outcome unit * BuddySystem :=
  match next_power_of_two size with
  | None => (OutOfFuel, self)
  | Some size =>
      if bool_decide (size > total_memory self)
      then (Raise RequestTooLarge_free, self)
      else if bool_decide (allocated self !! address ≠ Some size)
      then (Raise InvalidFree, self)
      else
        let al := delete address (allocated self) in
        let fuel := (Z.to_nat (total_memory self)
                     + length (free_list self !!! 0%Z))%nat in
        match coalesce fuel (total_memory self) size address (free_list self) with
        | None => (OutOfFuel, self)
        | Some (size, address, fl) =>
            (Return tt,
             mkBuddySystem (total_memory self)
               (<[ size := merge_sort Z.le (fl !!! size ++ [address]) ]> fl)
               al)
        end
  end.

(** * Specification vocabulary *)

(** ** Powers of two *)

Definition is_pow2 (n : Z) : Prop := ∃ k, 0 ≤ k ∧ n = 2 ^ k.

(** ** Weighing the blocks of a state

    A state describes a collection of blocks [(address, size)]: one for each
    address in each list of [free_list], and one for each entry of
    [allocated].  The conservation properties are sums over that collection,
    for two choices of the weight [f address size] of a block. *)

Definition sumZ (l : list Z) : Z := foldr Z.add 0 l.

Definition map_sum `{Countable K} {V : Type} (g : K → V → Z) (m : gmap K V)
  : Z :=
  sumZ (map (λ p, g p.1 p.2) (map_to_list m)).

Definition bucket_weight (f : Z → Z → Z) (S : Z) (l : list Z) : Z :=
  sumZ (map (λ a, f a S) l).

Definition free_weight (f : Z → Z → Z) (fl : gmap Z (list Z)) : Z :=
  map_sum (bucket_weight f) fl.

Definition alloc_weight (f : Z → Z → Z) (al : gmap Z Z) : Z := map_sum f al.

Definition weight (f : Z → Z → Z) (st : BuddySystem) : Z :=
  free_weight f (free_list st) + alloc_weight f (allocated st).

(** [covers x a S] is 1 when the block at [a] of size [S] contains the
    address [x], and 0 when it does not. *)
Definition covers (x a S : Z) : Z :=
  if bool_decide (a ≤ x < a + S) then 1 else 0.

(** The number of blocks of the state, free or allocated, that contain [x]. *)
Definition cover_count (x : Z) (st : BuddySystem) : Z := weight (covers x) st.

(** The sum of the sizes of all blocks of the state, free or allocated. *)
Definition total_size (st : BuddySystem) : Z := weight (λ _ S, S) st.

(** ** The partition of the memory, block by block *)

(** Two blocks overlap when some address lies in both. *)
Definition overlap (a S a' S' : Z) : Prop :=
  ∃ x, a ≤ x < a + S ∧ a' ≤ x < a' + S'.

(** The blocks of [st] partition [0, total_memory): none is empty, all lie
    inside the memory, every address of the memory is in one of them, and no
    two of them overlap (two blocks being two entries of [allocated], two
    positions of the lists of [free_list], or one of each). *)
Record partitions (st : BuddySystem) : Prop := {
  part_free_pos : ∀ S a, a ∈ free_list st !!! S → 0 < S;
  part_alloc_pos : ∀ a S, allocated st !! a = Some S → 0 < S;
  part_free_range : ∀ S a, a ∈ free_list st !!! S →
    0 ≤ a ∧ a + S ≤ total_memory st;
  part_alloc_range : ∀ a S, allocated st !! a = Some S →
    0 ≤ a ∧ a + S ≤ total_memory st;
  part_no_gap : ∀ x, 0 ≤ x < total_memory st →
    (∃ S a, a ∈ free_list st !!! S ∧ a ≤ x < a + S)
    ∨ (∃ a S, allocated st !! a = Some S ∧ a ≤ x < a + S);
  part_free_alloc : ∀ S a a' S',
    a ∈ free_list st !!! S → allocated st !! a' = Some S' →
    ¬ overlap a S a' S';
  part_alloc_alloc : ∀ a S a' S',
    allocated st !! a = Some S → allocated st !! a' = Some S' → a ≠ a' →
    ¬ overlap a S a' S';
  part_free_free : ∀ S a S' a',
    a ∈ free_list st !!! S → a' ∈ free_list st !!! S' → S ≠ S' →
    ¬ overlap a S a' S';
  part_free_same : ∀ S (i j : nat) a a',
    (free_list st !!! S) !! i = Some a → (free_list st !!! S) !! j = Some a' →
    i ≠ j → ¬ overlap a S a' S
}.

(** ** Invariants *)

(** The properties of [free_list] that every operation maintains, for a
    memory of [total] units: the keys are powers of two, the addresses under
    a key are aligned on it and lie inside the memory, every list is sorted,
    and no list holds a block together with its buddy. *)
Record fl_wf (total : Z) (fl : gmap Z (list Z)) : Prop := {
  fl_keys : ∀ S l, fl !! S = Some l → is_pow2 S ∧ S ≤ total;
  fl_aligned : ∀ S l a, fl !! S = Some l → a ∈ l →
    (S | a) ∧ 0 ≤ a ∧ a + S ≤ total;
  fl_sorted : ∀ S l, fl !! S = Some l → Sorted Z.le l;
  fl_coalesced : ∀ S l a, fl !! S = Some l → a ∈ l → Z.lxor a S ∉ l
}.

Record inv (st : BuddySystem) : Prop := {
  inv_total : is_pow2 (total_memory st);
  inv_free : fl_wf (total_memory st) (free_list st);
  inv_alloc : ∀ a S, allocated st !! a = Some S →
    is_pow2 S ∧ (S | a) ∧ 0 ≤ a ∧ a + S ≤ total_memory st;
  inv_cover : ∀ x,
    cover_count x st = if bool_decide (0 ≤ x < total_memory st) then 1 else 0;
  inv_sum : total_size st = total_memory st
}.

(** ** Reachable states *)

(** The states an allocator of positive size goes through: the freshly
    constructed one, and the state left by any call of [allocate] or [free]
    with a positive size, successful or not. *)
Inductive reachable : BuddySystem → Prop :=
  | reachable_construct total st :
      0 < total → construct total = Return st → reachable st
  | reachable_allocate st size :
      reachable st → 0 < size → reachable (allocate st size).2
  | reachable_free st address size :
      reachable st → 0 < size → reachable (free st address size).2.

(** ** The split loop in closed form *)

(** What the split loop computes from a block of size [r * 2 ^ j] when the
    request is [r]: it pushes the upper halves, largest first. *)
Fixpoint split_spec (j : nat) (r a : Z) (fl : gmap Z (list Z))
  : gmap Z (list Z) :=
  match j with
  | O => fl
  | S j' =>
      split_spec j' r a
        (push (r * 2 ^ Z.of_nat j') (a + r * 2 ^ Z.of_nat j') fl)
  end.

(** ** Example states *)

(** The allocator of the interactive menu: 1024 units. *)
Definition fresh_1024 : BuddySystem := mkBuddySystem 1024 {[ 1024 := [0] ]} ∅.

(** The state after [allocate(200)], [allocate(100)], [free(0, 256)]. *)
Definition busy_1024 : BuddySystem :=
  (free (allocate (allocate fresh_1024 200).2 100).2 0 256).2.

(** * The program, continued: the reports

    [__str__] builds the list [state] of lines and joins it with line feeds;
    [display_memory] prints its lines one by one, and is modelled by the list
    of the strings it passes to [print].  Integers are formatted in decimal,
    with a minus sign when negative, as [pretty] does. *)

(** The line feed ["\n"]. *)
Definition newline : string := String (Ascii.ascii_of_nat 10) EmptyString.

(** [sorted(self.free_list, reverse=True)]: the keys in descending order. *)
Definition sorted_keys_desc (fl : gmap Z (list Z)) : list Z :=
  merge_sort Z.ge (fst <$> map_to_list fl).

(** The order in which [sorted] puts pairs of integers. *)
Definition pair_le (p q : Z * Z) : Prop :=
  p.1 < q.1 ∨ (p.1 = q.1 ∧ p.2 ≤ q.2).

Global Instance pair_le_dec : RelDecision pair_le.
Proof. intros p q. unfold pair_le. apply _. Defined.

(** [sorted(self.allocated.items())]: the pairs (address, size). *)
Definition sorted_items (al : gmap Z Z) : list (Z * Z) :=
  merge_sort pair_le (map_to_list al).

(** The pairs (size, address) that the nested loops
    [for size in sorted(self.free_list, reverse=True):
       for address in self.free_list[size]:] go through. *)
Definition free_rows (self : BuddySystem) : list (Z * Z) :=
  sorted_keys_desc (free_list self)
    ≫= λ size, (λ address, (size, address)) <$> free_list self !!! size.

(** The list [state] of [__str__]. *)
Definition str_lines (self : BuddySystem) : list string :=
  let total_allocated := sumZ (snd <$> map_to_list (allocated self)) in
  let total_free := total_memory self - total_allocated in
  [ "Total Memory: " +:+ pretty (total_memory self) +:+ "KB";
    "Allocated Memory: " +:+ pretty total_allocated +:+ "KB";
    "Free Memory: " +:+ pretty total_free +:+ "KB";
    "Free Blocks:" ]
  ++ ((λ row : Z * Z,
         "Block Size: " +:+ pretty row.1 +:+ "KB, Allocated: false")
        <$> free_rows self)
  ++ ((λ item : Z * Z,
         "Block Size: " +:+ pretty item.2 +:+ "KB, Allocated: true")
        <$> sorted_items (allocated self)).

Definition __str__ (self : BuddySystem) : string :=
  String.concat newline (str_lines self).

(** The two kinds of block lines of [display_memory]. *)
Definition allocated_line (item : Z * Z) : string :=
  "  Address: " +:+ pretty item.1 +:+ "KB, Block Size: "
  +:+ pretty item.2 +:+ "KB, Allocated: True".

Definition free_line (row : Z * Z) : string :=
  "  Address: " +:+ pretty row.2 +:+ "KB, Block Size: "
  +:+ pretty row.1 +:+ "KB, Allocated: False".

(** The strings [display_memory] prints, in order. *)
Definition display_memory (self : BuddySystem) : list string :=
  [ newline +:+ "Memory Details:";
    "Total Memory: " +:+ pretty (total_memory self) +:+ "KB";
    "Allocated Memory:" ]
  ++ (if decide (allocated self = ∅)
      then [ "  No allocated memory blocks." ]
      else allocated_line <$> sorted_items (allocated self))
  ++ [ "Free Blocks:" ]
  ++ (free_line <$> free_rows self).

(** The order of the free rows of a report: larger sizes first, and lower
    addresses first within a size. *)
Definition row_before (p q : Z * Z) : Prop :=
  q.1 < p.1 ∨ (p.1 = q.1 ∧ p.2 < q.2).

(** * Powers of two and the buddy address *)

Lemma is_pow2_pos n : is_pow2 n → 0 < n.
Proof. intros (k & Hk & ->). by apply Z.pow_pos_nonneg. Qed.

Lemma is_pow2_double n : is_pow2 n → is_pow2 (n * 2).
Proof.
  intros (k & Hk & ->). exists (k + 1). split; [lia|].
  rewrite Z.pow_add_r by lia. lia.
Qed.

Lemma is_pow2_land n : is_pow2 n → Z.land n (n - 1) = 0.
Proof.
  intros (k & Hk & ->).
  replace (2 ^ k - 1) with (Z.ones k) by (rewrite Z.ones_equiv; lia).
  rewrite Z.land_ones by done. apply Z_mod_same_full.
Qed.

Lemma land_pred_is_pow2 n : 0 < n → Z.land n (n - 1) = 0 → is_pow2 n.
Proof.
  intros Hn Hland. pose proof (Z.log2_spec n Hn) as [Hlo Hhi].
  pose proof (Z.log2_nonneg n) as Hk.
  exists (Z.log2 n). split; [done|].
  destruct (decide (n = 2 ^ Z.log2 n)) as [|Hne]; [done|exfalso].
  assert (Z.log2 (n - 1) = Z.log2 n) as Hlog by (apply Z.log2_unique; lia).
  assert (Z.testbit (Z.land n (n - 1)) (Z.log2 n) = true) as Hbit.
  { rewrite Z.land_spec, Z.bit_log2 by lia.
    rewrite <- Hlog. rewrite Z.bit_log2 by lia. done. }
  rewrite Hland, Z.bits_0 in Hbit. done.
Qed.

Lemma land_pred_neg n : n < 0 → Z.land n (n - 1) ≠ 0.
Proof.
  intros Hn Hland.
  assert (Z.land n (n - 1) < 0) by (apply Z.land_neg; lia). lia.
Qed.

(** [total_memory & (total_memory - 1) == 0] holds for the powers of two
    and for zero, and for nothing else. *)
Lemma land_pred_zero_iff n : Z.land n (n - 1) = 0 ↔ n = 0 ∨ is_pow2 n.
Proof.
  split.
  - intros Hland. destruct (Z.lt_trichotomy n 0) as [Hn|[->|Hn]].
    + by apply land_pred_neg in Hn.
    + by left.
    + right. by apply land_pred_is_pow2.
  - intros [->|Hp]; [done|by apply is_pow2_land].
Qed.

Lemma is_pow2_le_factor r B :
  is_pow2 r → is_pow2 B → r ≤ B → ∃ j : nat, B = r * 2 ^ Z.of_nat j.
Proof.
  intros (p & Hp & ->) (q & Hq & ->) Hle.
  assert (p ≤ q) by (apply (Z.pow_le_mono_r_iff 2); lia).
  exists (Z.to_nat (q - p)). rewrite <- Z.pow_add_r by lia.
  f_equal. lia.
Qed.

Lemma land_even_multiple S a : is_pow2 S → (S * 2 | a) → Z.land a S = 0.
Proof.
  intros (k & Hk & ->) [q ->]. apply Z.bits_inj'. intros n Hn.
  rewrite Z.land_spec, Z.bits_0, Z.pow2_bits_eqb by done.
  destruct (Z.eqb_spec k n) as [<-|]; [|by rewrite andb_false_r].
  replace (q * (2 ^ k * 2)) with (q * 2 ^ (k + 1))
    by (rewrite Z.pow_add_r by lia; lia).
  rewrite Z.mul_pow2_bits_low by lia. done.
Qed.

Lemma lxor_even_multiple S a : is_pow2 S → (S * 2 | a) → Z.lxor a S = a + S.
Proof.
  intros HS Ha. symmetry. apply Z.add_nocarry_lxor. by apply land_even_multiple.
Qed.

(** The buddy of an aligned block is the other half of the enclosing block
    of twice the size. *)
Lemma buddy_cases S a :
  is_pow2 S → (S | a) →
  (Z.lxor a S = a + S ∧ (S * 2 | a)) ∨ (Z.lxor a S = a - S ∧ (S * 2 | a - S)).
Proof.
  intros HS [q ->]. destruct (Z.Even_or_Odd q) as [[h ->]|[h ->]].
  - left. assert (S * 2 | 2 * h * S) by (exists h; lia).
    split; [by apply lxor_even_multiple|done].
  - right. assert (S * 2 | (2 * h + 1) * S - S) as Hd by (exists h; lia).
    split; [|done].
    pose proof (lxor_even_multiple S _ HS Hd) as Hx.
    replace ((2 * h + 1) * S - S + S) with ((2 * h + 1) * S) in Hx by lia.
    rewrite <- Hx at 1. rewrite Z.lxor_assoc, Z.lxor_nilpotent, Z.lxor_0_r. done.
Qed.

Lemma lxor_fixpoint a S : Z.lxor a S = a → S = 0.
Proof.
  intros H. apply (f_equal (Z.lxor a)) in H.
  rewrite <- Z.lxor_assoc, Z.lxor_nilpotent, Z.lxor_0_l in H. done.
Qed.

(** ** [next_power_of_two] *)

Lemma next_power_of_two_loop_spec size fuel i :
  1 < size → 0 ≤ i ≤ Z.log2_up size →
  (Z.to_nat (Z.log2_up size - i) ≤ fuel)%nat →
  next_power_of_two_loop fuel (2 ^ i) size = Some (2 ^ Z.log2_up size).
Proof.
  intros Hsize. pose proof (Z.log2_up_spec size Hsize) as [Hlo Hhi].
  revert i. induction fuel as [|fuel IH]; intros i Hi Hfuel; simpl.
  - assert (i = Z.log2_up size) as -> by lia.
    rewrite bool_decide_eq_false_2 by lia. done.
  - case_bool_decide as Hlt.
    + assert (i < Z.log2_up size).
      { apply (Z.pow_lt_mono_r_iff 2); lia. }
      replace (2 ^ i * 2) with (2 ^ (i + 1))
        by (rewrite Z.pow_add_r by lia; lia).
      apply IH; lia.
    + assert (Z.pred (Z.log2_up size) < i).
      { apply (Z.pow_lt_mono_r_iff 2); lia. }
      do 2 f_equal. lia.
Qed.

Lemma log2_up_lt_self size : 0 < size → Z.log2_up size < size.
Proof.
  intros Hsize. destruct (decide (size = 1)) as [->|]; [done|].
  pose proof (Z.log2_up_spec size ltac:(lia)) as [Hlo _].
  pose proof (Z.log2_up_nonneg size).
  pose proof (Z.pow_gt_lin_r 2 (Z.pred (Z.log2_up size)) ltac:(lia)).
  lia.
Qed.

(** For a positive request the rounding returns the smallest power of two
    that is not below it. *)
Lemma next_power_of_two_pos size :
  0 < size → next_power_of_two size = Some (2 ^ Z.log2_up size).
Proof.
  intros Hsize. unfold next_power_of_two. case_bool_decide as Hland.
  - apply land_pred_is_pow2 in Hland as (k & Hk & ->); [|done].
    by rewrite Z.log2_up_pow2.
  - assert (1 < size).
    { destruct (decide (size = 1)) as [->|]; [done|lia]. }
    apply (next_power_of_two_loop_spec size _ 0); [done|..].
    + pose proof (Z.log2_up_nonneg size). lia.
    + pose proof (log2_up_lt_self size Hsize). lia.
Qed.

(** The rounding terminates on every integer. *)
Lemma next_power_of_two_total size : is_Some (next_power_of_two size).
Proof.
  destruct (Z.lt_trichotomy size 0) as [Hn|[->|Hn]].
  - unfold next_power_of_two. rewrite bool_decide_eq_false_2
      by (by apply land_pred_neg).
    destruct (Z.to_nat size); simpl; rewrite bool_decide_eq_false_2 by lia; eauto.
  - by eexists.
  - rewrite next_power_of_two_pos by done. eauto.
Qed.

Lemma next_power_of_two_is_pow2 size r :
  0 < size → next_power_of_two size = Some r →
  is_pow2 r ∧ size ≤ r ∧ r < 2 * size.
Proof.
  intros Hsize. rewrite next_power_of_two_pos by done. intros [= <-].
  pose proof (Z.log2_up_nonneg size).
  split; [by eexists|].
  destruct (decide (size = 1)) as [->|]; [done|].
  pose proof (Z.log2_up_spec size ltac:(lia)) as [Hlo Hhi].
  split; [done|].
  pose proof (Z.log2_up_pos size ltac:(lia)).
  replace (Z.log2_up size) with (Z.pred (Z.log2_up size) + 1) by lia.
  rewrite Z.pow_add_r by lia. lia.
Qed.

(** * Sums over the blocks of a state *)

Lemma sumZ_app l1 l2 : sumZ (l1 ++ l2) = sumZ l1 + sumZ l2.
Proof. induction l1 as [|x l1 IH]; simpl; lia. Qed.

Global Instance sumZ_perm : Proper ((≡ₚ) ==> (=)) sumZ.
Proof. induction 1; simpl; lia. Qed.

Section map_sum.
Context `{Countable K} {V : Type} (g : K → V → Z).

Lemma map_sum_empty : map_sum g ∅ = 0.
Proof. unfold map_sum. by rewrite map_to_list_empty. Qed.

Lemma map_sum_insert_None m k v :
  m !! k = None → map_sum g (<[k:=v]> m) = g k v + map_sum g m.
Proof. intros Hk. unfold map_sum. by rewrite map_to_list_insert. Qed.

Lemma map_sum_delete m k v :
  m !! k = Some v → map_sum g m = g k v + map_sum g (delete k m).
Proof.
  intros Hk. unfold map_sum. by rewrite <- (map_to_list_delete m k v Hk).
Qed.

Lemma map_sum_insert_Some m k v v' :
  m !! k = Some v → map_sum g (<[k:=v']> m) = map_sum g m - g k v + g k v'.
Proof.
  intros Hk. rewrite <- insert_delete_eq.
  rewrite map_sum_insert_None by apply lookup_delete_eq.
  rewrite (map_sum_delete m k v Hk). lia.
Qed.
End map_sum.

Section weight.
Variable f : Z → Z → Z.

Global Instance bucket_weight_perm S :
  Proper ((≡ₚ) ==> (=)) (bucket_weight f S).
Proof. intros l1 l2 Hl. unfold bucket_weight. by rewrite Hl. Qed.

Lemma bucket_weight_app S l1 l2 :
  bucket_weight f S (l1 ++ l2) = bucket_weight f S l1 + bucket_weight f S l2.
Proof. unfold bucket_weight. by rewrite map_app, sumZ_app. Qed.

Lemma bucket_weight_nil S : bucket_weight f S [] = 0.
Proof. done. Qed.

Lemma bucket_weight_cons S a l :
  bucket_weight f S (a :: l) = f a S + bucket_weight f S l.
Proof. done. Qed.

Lemma free_weight_insert fl S l :
  free_weight f (<[S:=l]> fl)
  = free_weight f fl - bucket_weight f S (fl !!! S) + bucket_weight f S l.
Proof.
  unfold free_weight. rewrite lookup_total_alt.
  destruct (fl !! S) as [l0|] eqn:HS; simpl.
  - by rewrite (map_sum_insert_Some _ _ _ l0).
  - rewrite map_sum_insert_None, bucket_weight_nil by done. lia.
Qed.

Lemma free_weight_push fl S a :
  free_weight f (push S a fl) = free_weight f fl + f a S.
Proof.
  unfold push.
  rewrite free_weight_insert, bucket_weight_app, bucket_weight_cons,
    bucket_weight_nil.
  lia.
Qed.

Lemma alloc_weight_insert al a S :
  al !! a = None → alloc_weight f (<[a:=S]> al) = alloc_weight f al + f a S.
Proof.
  intros Ha. unfold alloc_weight. rewrite map_sum_insert_None by done. lia.
Qed.

Lemma alloc_weight_delete al a S :
  al !! a = Some S → alloc_weight f (delete a al) = alloc_weight f al - f a S.
Proof.
  intros Ha. unfold alloc_weight. rewrite (map_sum_delete _ al a S Ha). lia.
Qed.
End weight.

(** [remove_first] and sorting, as operations on multisets. *)

Lemma remove_first_perm x l : x ∈ l → l ≡ₚ x :: remove_first x l.
Proof.
  induction l as [|y l IH]; [by intros ?%elem_of_nil|].
  intros Hx. simpl. case_bool_decide as Hy; [by subst|].
  apply elem_of_cons in Hx as [->|Hx]; [done|].
  rewrite (IH Hx) at 1. apply Permutation_swap.
Qed.

Lemma remove_first_subseteq x l : remove_first x l ⊆ l.
Proof.
  induction l as [|y l IH]; simpl; [done|].
  intros z Hz. case_bool_decide.
  - by apply elem_of_cons; right.
  - apply elem_of_cons in Hz as [->|Hz]; apply elem_of_cons; auto.
Qed.

Lemma remove_first_head x l : remove_first x (x :: l) = l.
Proof. simpl. by rewrite bool_decide_eq_true_2. Qed.

Lemma Sorted_remove_first x l : Sorted Z.le l → Sorted Z.le (remove_first x l).
Proof.
  intros Hl%(Sorted_StronglySorted _). apply StronglySorted_Sorted.
  induction Hl as [|y l Hl IH Hy]; simpl; [constructor|].
  case_bool_decide; [done|]. constructor; [done|].
  eapply Forall_impl; [|done].
  apply Forall_forall. intros z Hz%remove_first_subseteq.
  by eapply Forall_forall in Hy.
Qed.

Lemma merge_sort_snoc_head a l :
  Sorted Z.le (a :: l) → merge_sort Z.le (l ++ [a]) = a :: l.
Proof.
  intros Hs. apply (Sorted_unique Z.le); [apply Sorted_merge_sort; apply _|done|].
  rewrite merge_sort_Permutation. by rewrite Permutation_app_comm.
Qed.

(** * The free list: lookups with a default *)

Lemma lookup_total_nonempty (fl : gmap Z (list Z)) S :
  fl !!! S ≠ [] → fl !! S = Some (fl !!! S).
Proof.
  rewrite lookup_total_alt. destruct (fl !! S); simpl; [done|congruence].
Qed.

Lemma elem_of_lookup_total (fl : gmap Z (list Z)) S a :
  a ∈ fl !!! S → fl !! S = Some (fl !!! S).
Proof.
  intros Ha. apply lookup_total_nonempty. intros Hnil.
  rewrite Hnil in Ha. by apply elem_of_nil in Ha.
Qed.

Lemma lookup_total_push_eq fl S a : push S a fl !!! S = fl !!! S ++ [a].
Proof. unfold push. by rewrite lookup_total_insert_eq. Qed.

Lemma lookup_total_push_ne fl S S' a : S ≠ S' → push S a fl !!! S' = fl !!! S'.
Proof. intros. unfold push. by rewrite lookup_total_insert_ne. Qed.

(** * The split loop *)

Lemma pow2_nat_pos (j : nat) : 0 < 2 ^ Z.of_nat j.
Proof. apply Z.pow_pos_nonneg; lia. Qed.

Lemma pow2_nat_succ (j : nat) : 2 ^ Z.of_nat (S j) = 2 ^ Z.of_nat j * 2.
Proof. rewrite Nat2Z.inj_succ, Z.pow_succ_r by lia. lia. Qed.

Lemma pow2_nat_lt (i j : nat) : (i < j)%nat → 2 ^ Z.of_nat i * 2 ≤ 2 ^ Z.of_nat j.
Proof.
  intros Hij. rewrite <- pow2_nat_succ. apply Z.pow_le_mono_r; lia.
Qed.

Lemma pow2_nat_divide (i j : nat) :
  (i ≤ j)%nat → (2 ^ Z.of_nat i | 2 ^ Z.of_nat j).
Proof.
  intros Hij. exists (2 ^ (Z.of_nat j - Z.of_nat i)).
  rewrite <- Z.pow_add_r by lia. f_equal. lia.
Qed.

Lemma pow2_nat_gt_lin (j : nat) : Z.of_nat j < 2 ^ Z.of_nat j.
Proof. apply Z.pow_gt_lin_r; lia. Qed.

Lemma is_pow2_scale r (j : nat) : is_pow2 r → is_pow2 (r * 2 ^ Z.of_nat j).
Proof.
  intros (k & Hk & ->). exists (k + Z.of_nat j). split; [lia|].
  by rewrite Z.pow_add_r by lia.
Qed.

Lemma split_S fuel block_size size address fl :
  split (S fuel) block_size size address fl
  = if bool_decide (block_size > size)
    then split fuel (block_size `div` 2) size address
           (push (block_size `div` 2) (address + block_size `div` 2) fl)
    else Some fl.
Proof. done. Qed.

Lemma split_eq j fuel r a fl :
  0 < r → (j ≤ fuel)%nat →
  split fuel (r * 2 ^ Z.of_nat j) r a fl = Some (split_spec j r a fl).
Proof.
  intros Hr. revert fuel fl. induction j as [|j IH]; intros fuel fl Hfuel.
  - replace (r * 2 ^ Z.of_nat 0) with r by (simpl; lia).
    destruct fuel; simpl; by rewrite bool_decide_eq_false_2 by lia.
  - destruct fuel as [|fuel]; [lia|]. pose proof (pow2_nat_pos j).
    rewrite split_S, bool_decide_eq_true_2 by (rewrite pow2_nat_succ; nia).
    replace ((r * 2 ^ Z.of_nat (S j)) `div` 2) with (r * 2 ^ Z.of_nat j).
    + rewrite IH by lia. done.
    + rewrite pow2_nat_succ, Z.mul_assoc, Z.div_mul by lia. done.
Qed.

Lemma split_fuel r (j : nat) : 0 < r → (j ≤ Z.to_nat (r * 2 ^ Z.of_nat j))%nat.
Proof. intros Hr. pose proof (pow2_nat_gt_lin j). nia. Qed.

Lemma chain_injective r (i j : nat) :
  0 < r → r * 2 ^ Z.of_nat i = r * 2 ^ Z.of_nat j → i = j.
Proof.
  intros Hr Heq. apply Z.mul_reg_l in Heq; [|lia].
  apply Z.pow_inj_r in Heq; lia.
Qed.

Lemma chain_dec r (j : nat) S :
  (∃ i : nat, (i < j)%nat ∧ S = r * 2 ^ Z.of_nat i)
  ∨ (∀ i : nat, (i < j)%nat → S ≠ r * 2 ^ Z.of_nat i).
Proof.
  induction j as [|j [(i & Hi & ->)|IH]].
  - right. lia.
  - left. exists i. split; [lia|done].
  - destruct (decide (S = r * 2 ^ Z.of_nat j)) as [->|Hne].
    + left. exists j. split; [lia|done].
    + right. intros i Hi. destruct (decide (i = j)) as [->|]; [done|].
      apply IH. lia.
Qed.

Lemma split_spec_lookup_ne j r a fl S :
  (∀ i : nat, (i < j)%nat → S ≠ r * 2 ^ Z.of_nat i) →
  split_spec j r a fl !! S = fl !! S.
Proof.
  revert fl. induction j as [|j IH]; intros fl HS; simpl; [done|].
  rewrite IH by (intros i Hi; apply HS; lia).
  unfold push. rewrite lookup_insert_ne; [done|].
  intros Heq. by apply (HS j); [lia|].
Qed.

Lemma split_spec_lookup_chain j r a fl (i : nat) :
  0 < r → (i < j)%nat →
  split_spec j r a fl !! (r * 2 ^ Z.of_nat i)
  = Some (fl !!! (r * 2 ^ Z.of_nat i) ++ [a + r * 2 ^ Z.of_nat i]).
Proof.
  intros Hr. revert fl. induction j as [|j IH]; intros fl Hi; simpl; [lia|].
  destruct (decide (i = j)) as [->|Hne].
  - rewrite split_spec_lookup_ne.
    + unfold push. by rewrite lookup_insert_eq.
    + intros i' Hi' Heq. apply chain_injective in Heq; lia.
  - rewrite IH by lia. rewrite lookup_total_push_ne; [done|].
    intros Heq. apply chain_injective in Heq; lia.
Qed.

Lemma split_spec_lookup_total_ne j r a fl S :
  (∀ i : nat, (i < j)%nat → S ≠ r * 2 ^ Z.of_nat i) →
  split_spec j r a fl !!! S = fl !!! S.
Proof. intros HS. by rewrite !lookup_total_alt, split_spec_lookup_ne. Qed.

Lemma split_spec_lookup_total_chain j r a fl (i : nat) :
  0 < r → (i < j)%nat →
  split_spec j r a fl !!! (r * 2 ^ Z.of_nat i)
  = fl !!! (r * 2 ^ Z.of_nat i) ++ [a + r * 2 ^ Z.of_nat i].
Proof.
  intros Hr Hi.
  by rewrite (lookup_total_alt (split_spec _ _ _ _)), split_spec_lookup_chain.
Qed.

(** * Well-formed free lists *)

Lemma fl_wf_shrink total fl S l l' :
  fl_wf total fl → fl !! S = Some l → l' ⊆ l → Sorted Z.le l' →
  fl_wf total (<[S:=l']> fl).
Proof.
  intros [Hk Ha Hs Hc] HS Hsub Hsorted. split.
  - intros S1 l1 [[<- <-]|[? ?]]%lookup_insert_Some; eauto.
  - intros S1 l1 a [[<- <-]|[? ?]]%lookup_insert_Some ?; eauto.
  - intros S1 l1 [[<- <-]|[? ?]]%lookup_insert_Some; eauto.
  - intros S1 l1 a [[<- <-]|[? ?]]%lookup_insert_Some ?; eauto.
    intros Hx. eapply (Hc S l a); eauto.
Qed.

Lemma fl_wf_push_fresh total fl S a :
  fl_wf total fl → fl !!! S = [] → is_pow2 S → S ≤ total →
  (S | a) → 0 ≤ a → a + S ≤ total →
  fl_wf total (push S a fl).
Proof.
  intros [Hk Ha Hs Hc] Hnil HS Hle Hdiv H0 Hhi. unfold push. rewrite Hnil. simpl.
  split.
  - intros S1 l1 [[<- <-]|[? ?]]%lookup_insert_Some; eauto.
  - intros S1 l1 x [[<- <-]|[? ?]]%lookup_insert_Some Hx; eauto.
    apply list_elem_of_singleton in Hx as ->. done.
  - intros S1 l1 [[<- <-]|[? ?]]%lookup_insert_Some; eauto.
  - intros S1 l1 x [[<- <-]|[? ?]]%lookup_insert_Some Hx; eauto.
    apply list_elem_of_singleton in Hx as ->.
    intros Hx%list_elem_of_singleton%lxor_fixpoint.
    apply is_pow2_pos in HS. lia.
Qed.

Lemma fl_wf_insert_sorted total fl S a :
  fl_wf total fl → is_pow2 S → S ≤ total →
  (S | a) → 0 ≤ a → a + S ≤ total → Z.lxor a S ∉ fl !!! S →
  fl_wf total (<[S := merge_sort Z.le (fl !!! S ++ [a])]> fl).
Proof.
  intros [Hk Ha Hs Hc] HS Hle Hdiv H0 Hhi Hbuddy.
  assert (∀ x, x ∈ merge_sort Z.le (fl !!! S ++ [a]) → x ∈ fl !!! S ∨ x = a)
    as Hin.
  { intros x. rewrite merge_sort_Permutation, elem_of_app, list_elem_of_singleton.
    done. }
  split.
  - intros S1 l1 [[<- <-]|[? ?]]%lookup_insert_Some; eauto.
  - intros S1 l1 x [[<- <-]|[? ?]]%lookup_insert_Some Hx; eauto.
    apply Hin in Hx as [Hx| ->]; [|done].
    eapply Ha; [|done]. by eapply elem_of_lookup_total.
  - intros S1 l1 [[<- <-]|[? ?]]%lookup_insert_Some; eauto.
    apply Sorted_merge_sort, _.
  - intros S1 l1 x [[<- <-]|[? ?]]%lookup_insert_Some Hx; eauto.
    intros Hy%Hin. apply Hin in Hx.
    destruct Hx as [Hx| ->], Hy as [Hy|Hy].
    + eapply Hc; [|exact Hx|exact Hy]. by eapply elem_of_lookup_total.
    + apply Hbuddy. rewrite <- Hy.
      by rewrite Z.lxor_assoc, Z.lxor_nilpotent, Z.lxor_0_r.
    + done.
    + apply lxor_fixpoint in Hy. apply is_pow2_pos in HS. lia.
Qed.

Lemma split_spec_wf total j r a fl :
  fl_wf total fl → is_pow2 r →
  (r * 2 ^ Z.of_nat j | a) → 0 ≤ a → a + r * 2 ^ Z.of_nat j ≤ total →
  (∀ i : nat, (i < j)%nat → fl !!! (r * 2 ^ Z.of_nat i) = []) →
  fl_wf total (split_spec j r a fl).
Proof.
  intros Hwf Hr. pose proof (is_pow2_pos r Hr) as Hrpos.
  revert fl Hwf. induction j as [|j IH]; intros fl Hwf Hdiv H0 Hhi Hnil; [done|].
  simpl. pose proof (pow2_nat_pos j) as Hj. rewrite pow2_nat_succ in Hdiv, Hhi.
  assert (r * 2 ^ Z.of_nat j | a) as Hdiv'.
  { etrans; [|exact Hdiv]. exists 2. lia. }
  apply IH.
  - apply fl_wf_push_fresh; try done.
    + apply Hnil. lia.
    + by apply is_pow2_scale.
    + nia.
    + apply Z.divide_add_r; [done|reflexivity].
    + nia.
    + nia.
  - done.
  - done.
  - nia.
  - intros i Hi. rewrite lookup_total_push_ne; [apply Hnil; lia|].
    intros Heq. apply chain_injective in Heq; lia.
Qed.

(** * The coalescing loop *)

Lemma coalesce_unfold fuel total size address fl :
  coalesce fuel total size address fl
  = if bool_decide (size < total) then
      if bool_decide (Z.lxor address size ∈ fl !!! size) then
        match fuel with
        | O => None
        | S fuel' =>
            coalesce fuel' total (size * 2) (Z.min address (Z.lxor address size))
              (<[ size := remove_first (Z.lxor address size) (fl !!! size) ]> fl)
        end
      else Some (size, address, fl)
    else Some (size, address, fl).
Proof. by destruct fuel. Qed.

(** * The loops preserve the total weight *)

Section conservation.
Variable f : Z → Z → Z.
(** Halving a block keeps its weight. *)
Hypothesis f_split : ∀ a S, 0 < S → f a (S * 2) = f a S + f (a + S) S.

Lemma split_spec_weight j r a fl :
  0 < r →
  free_weight f (split_spec j r a fl) + f a r
  = free_weight f fl + f a (r * 2 ^ Z.of_nat j).
Proof.
  intros Hr. revert fl. induction j as [|j IH]; intros fl; simpl split_spec.
  - replace (r * 2 ^ Z.of_nat 0) with r by (simpl; lia). done.
  - pose proof (pow2_nat_pos j). rewrite IH, free_weight_push.
    rewrite pow2_nat_succ, Z.mul_assoc, f_split by nia. lia.
Qed.

Lemma coalesce_weight fuel total size address fl size' address' fl' :
  is_pow2 size → (size | address) →
  coalesce fuel total size address fl = Some (size', address', fl') →
  free_weight f fl' + f address' size' = free_weight f fl + f address size.
Proof.
  revert size address fl.
  induction fuel as [|fuel IH]; intros size address fl Hsize Hdiv;
    rewrite coalesce_unfold.
  - repeat case_bool_decide; [done|..]; by intros [= <- <- <-].
  - case_bool_decide; [|by intros [= <- <- <-]].
    case_bool_decide as Hbuddy; [|by intros [= <- <- <-]].
    intros Hrec. pose proof (is_pow2_pos size Hsize) as Hpos.
    assert (bucket_weight f size (fl !!! size)
            = f (Z.lxor address size) size
              + bucket_weight f size (remove_first (Z.lxor address size)
                                        (fl !!! size))) as Hbw.
    { by rewrite (remove_first_perm _ _ Hbuddy) at 1. }
    destruct (buddy_cases size address Hsize Hdiv) as [[Hx Hd]|[Hx Hd]];
      rewrite Hx in *.
    + rewrite Z.min_l in Hrec by lia.
      apply IH in Hrec; [|by apply is_pow2_double|done].
      rewrite Hrec, free_weight_insert, f_split by done. lia.
    + rewrite Z.min_r in Hrec by lia.
      apply IH in Hrec; [|by apply is_pow2_double|done].
      rewrite Hrec, free_weight_insert, f_split by done.
      replace (address - size + size) with address by lia. lia.
Qed.
End conservation.

(** The loop stops at once on a block that has reached the size of the
    memory or whose buddy is not free. *)
Lemma coalesce_stop fuel total size address fl :
  (size < total → Z.lxor address size ∉ fl !!! size) →
  coalesce fuel total size address fl = Some (size, address, fl).
Proof.
  intros Hstop. rewrite coalesce_unfold.
  case_bool_decide as Hlt; [|done]. by rewrite bool_decide_eq_false_2 by auto.
Qed.

(** The coalescing loop terminates: the size doubles at every round. *)
Lemma coalesce_total fuel total size address fl :
  0 < size → total ≤ size * 2 ^ Z.of_nat fuel →
  is_Some (coalesce fuel total size address fl).
Proof.
  revert size address fl.
  induction fuel as [|fuel IH]; intros size address fl Hsize Hfuel;
    rewrite coalesce_unfold.
  - rewrite bool_decide_eq_false_2 by (simpl in Hfuel; lia). eauto.
  - repeat case_bool_decide; eauto.
    apply IH; [lia|]. rewrite pow2_nat_succ in Hfuel. lia.
Qed.

Lemma coalesce_fuel total size (n : nat) :
  0 < size → total ≤ size * 2 ^ Z.of_nat (Z.to_nat total + n).
Proof.
  intros Hsize. pose proof (pow2_nat_gt_lin (Z.to_nat total + n)). nia.
Qed.

(** The loop keeps the free list well formed, and the block it leaves to be
    inserted is aligned, inside the memory, and has no free buddy. *)
Lemma coalesce_wf fuel total size address fl size' address' fl' :
  is_pow2 size → (size | address) → 0 ≤ address → address + size ≤ total →
  fl_wf total fl →
  coalesce fuel total size address fl = Some (size', address', fl') →
  is_pow2 size' ∧ (size' | address') ∧ 0 ≤ address' ∧ address' + size' ≤ total
  ∧ fl_wf total fl' ∧ Z.lxor address' size' ∉ fl' !!! size'.
Proof.
  revert size address fl.
  induction fuel as [|fuel IH]; intros size address fl Hsize Hdiv H0 Hhi Hwf;
    rewrite coalesce_unfold; pose proof (is_pow2_pos size Hsize) as Hpos.
  all: case_bool_decide as Hlt;
    [|intros [= <- <- <-]; split_and!; try done;
      intros Hin; pose proof (elem_of_lookup_total _ _ _ Hin) as Hl;
      assert (address = 0) as -> by lia; rewrite Z.lxor_0_l in Hin;
      destruct (fl_aligned _ _ Hwf _ _ _ Hl Hin) as (_ & _ & ?); lia].
  all: case_bool_decide as Hbuddy; [|by intros [= <- <- <-]].
  - done.
  - pose proof (elem_of_lookup_total _ _ _ Hbuddy) as Hl.
    destruct (fl_aligned _ _ Hwf _ _ _ Hl Hbuddy) as (Hbd & Hb0 & Hbhi).
    apply IH.
    + by apply is_pow2_double.
    + destruct (buddy_cases size address Hsize Hdiv) as [[Hx Hd]|[Hx Hd]];
        rewrite Hx; [by rewrite Z.min_l by lia|by rewrite Z.min_r by lia].
    + lia.
    + destruct (buddy_cases size address Hsize Hdiv) as [[Hx Hd]|[Hx Hd]];
        rewrite Hx in *; lia.
    + eapply fl_wf_shrink; [done|done|..].
      * apply remove_first_subseteq.
      * apply Sorted_remove_first. by eapply fl_sorted.
Qed.

(** * The first-fit scan *)

Lemma sorted_keys_elem fl S : S ∈ sorted_keys fl ↔ is_Some (fl !! S).
Proof.
  unfold sorted_keys. rewrite merge_sort_Permutation, list_elem_of_fmap. split.
  - intros ([S' l] & -> & Hin%elem_of_map_to_list). by eexists.
  - intros [l Hl]. exists (S, l). split; [done|]. by apply elem_of_map_to_list.
Qed.

Lemma StronglySorted_lookup_le (l : list Z) (i j : nat) x y :
  StronglySorted Z.le l → l !! i = Some x → l !! j = Some y → (i ≤ j)%nat →
  x ≤ y.
Proof.
  intros Hl. revert i j. induction Hl as [|z l Hl IH Hz]; intros i j Hi Hj Hij.
  - by rewrite lookup_nil in Hi.
  - destruct i as [|i], j as [|j]; simplify_eq/=; [lia| |lia|].
    + eapply Forall_forall in Hz; [done|]. by eapply list_elem_of_lookup_2.
    + eapply IH; [done..|lia].
Qed.

(** The block size the scan stops at is the smallest suitable one. *)
Lemma first_fit_Some fl size i B :
  list_find (suitable fl size) (sorted_keys fl) = Some (i, B) →
  suitable fl size B ∧ ∀ S, suitable fl size S → B ≤ S.
Proof.
  intros (Hi & HB & Hmin)%list_find_Some. split; [done|].
  intros S HS. assert (S ∈ sorted_keys fl) as [k Hk]%list_elem_of_lookup.
  { apply sorted_keys_elem. destruct HS as [_ HS].
    apply lookup_total_nonempty in HS. by eexists. }
  destruct (decide (k < i)%nat) as [Hlt|Hge].
  - by destruct (Hmin k S Hk Hlt).
  - eapply (StronglySorted_lookup_le (sorted_keys fl) i k); [|done..|lia].
    apply StronglySorted_merge_sort; apply _.
Qed.

Lemma first_fit_None fl size :
  list_find (suitable fl size) (sorted_keys fl) = None →
  ∀ S, ¬ suitable fl size S.
Proof.
  intros Hnone%list_find_None S HS.
  eapply Forall_forall in Hnone; [by apply Hnone|].
  apply sorted_keys_elem. destruct HS as [_ HS].
  apply lookup_total_nonempty in HS. by eexists.
Qed.

(** * Covering and the state invariant *)

Lemma covers_split x a S :
  0 < S → covers x a (S * 2) = covers x a S + covers x (a + S) S.
Proof. intros HS. unfold covers. repeat case_bool_decide; lia. Qed.

Lemma covers_nonneg x a S : 0 ≤ covers x a S.
Proof. unfold covers. case_bool_decide; lia. Qed.

Lemma covers_self a S : 0 < S → covers a a S = 1.
Proof. intros HS. unfold covers. by rewrite bool_decide_eq_true_2 by lia. Qed.

Section nonneg.
Context `{Countable K} {V : Type} (g : K → V → Z).
Hypothesis g_nonneg : ∀ k v, 0 ≤ g k v.

Lemma sumZ_nonneg (l : list Z) : Forall (λ x, 0 ≤ x) l → 0 ≤ sumZ l.
Proof. induction 1; simpl; lia. Qed.

Lemma map_sum_nonneg (m : gmap K V) : 0 ≤ map_sum g m.
Proof.
  unfold map_sum. apply sumZ_nonneg, Forall_forall.
  intros x (p & <- & _)%list_elem_of_In%in_map_iff. apply g_nonneg.
Qed.

Lemma map_sum_lookup_le (m : gmap K V) k v :
  m !! k = Some v → g k v ≤ map_sum g m.
Proof.
  intros Hk. rewrite (map_sum_delete g m k v Hk).
  pose proof (map_sum_nonneg (delete k m)). lia.
Qed.
End nonneg.

Lemma bucket_weight_covers_nonneg x S l : 0 ≤ bucket_weight (covers x) S l.
Proof.
  induction l as [|a l IH]; [done|].
  rewrite bucket_weight_cons. pose proof (covers_nonneg x a S). lia.
Qed.

(** In a state whose blocks do not overlap, the head of a free list is not
    an allocated address. *)
Lemma free_head_not_allocated st B a rest :
  inv st → free_list st !!! B = a :: rest → allocated st !! a = None.
Proof.
  intros Hinv HB. destruct (allocated st !! a) as [S'|] eqn:Ha; [exfalso|done].
  assert (free_list st !! B = Some (a :: rest)) as Hl.
  { rewrite <- HB. apply lookup_total_nonempty. by rewrite HB. }
  destruct (fl_keys _ _ (inv_free _ Hinv) _ _ Hl) as [HBp%is_pow2_pos _].
  destruct (inv_alloc _ Hinv _ _ Ha) as [HSp%is_pow2_pos _].
  pose proof (inv_cover _ Hinv a) as Hc.
  unfold cover_count, weight, free_weight, alloc_weight in Hc.
  pose proof (map_sum_lookup_le (bucket_weight (covers a))
                (bucket_weight_covers_nonneg a) _ _ _ Hl) as H1.
  pose proof (map_sum_lookup_le (covers a) (covers_nonneg a) _ _ _ Ha) as H2.
  rewrite bucket_weight_cons, covers_self in H1 by done.
  rewrite covers_self in H2 by done.
  pose proof (bucket_weight_covers_nonneg a B rest).
  case_bool_decide; lia.
Qed.

(** * What the two operations do in a well-formed state *)

(** [allocate] on a request that rounds to the power of two [r]: it raises
    before touching anything, or pops the head [a] of the list of the
    smallest suitable size [r * 2 ^ j] and splits [j] times. *)
Lemma allocate_cases st size r :
  inv st → next_power_of_two size = Some r → is_pow2 r →
  (total_memory st < r
   ∧ allocate st size = (Raise RequestTooLarge_allocate, st))
  ∨ (r ≤ total_memory st
     ∧ (∀ S, ¬ suitable (free_list st) r S)
     ∧ allocate st size = (Raise NoSuitableBlock, st))
  ∨ (r ≤ total_memory st
     ∧ ∃ (j : nat) a rest,
         suitable (free_list st) r (r * 2 ^ Z.of_nat j)
         ∧ (∀ S, suitable (free_list st) r S → r * 2 ^ Z.of_nat j ≤ S)
         ∧ free_list st !!! (r * 2 ^ Z.of_nat j) = a :: rest
         ∧ allocate st size
           = (Return a,
              mkBuddySystem (total_memory st)
                (split_spec j r a
                   (<[r * 2 ^ Z.of_nat j := rest]> (free_list st)))
                (<[a := r]> (allocated st)))).
Proof.
  intros Hinv Hnpot Hr. unfold allocate. rewrite Hnpot.
  case_bool_decide as Hbig; [left; split; [lia|done]|right].
  destruct (list_find _ _) as [[i B]|] eqn:Hfind.
  - right. split; [lia|].
    apply first_fit_Some in Hfind as [HB Hmin].
    pose proof HB as [Hle Hne].
    pose proof (lookup_total_nonempty _ _ Hne) as Hl.
    destruct (fl_keys _ _ (inv_free _ Hinv) _ _ Hl) as [HBp _].
    destruct (is_pow2_le_factor r B Hr HBp Hle) as [j ->].
    destruct (free_list st !!! (r * 2 ^ Z.of_nat j)) as [|a rest] eqn:Hlist;
      [done|].
    exists j, a, rest. split_and!; try done.
    rewrite split_eq; [done|by apply is_pow2_pos|].
    apply split_fuel. by apply is_pow2_pos.
  - left. split; [lia|]. split; [|done]. by apply first_fit_None.
Qed.

(** [free] on a size that rounds to the power of two [r]: it raises before
    touching anything, or removes the entry, coalesces and inserts the
    resulting block. *)
Lemma free_cases st address size r :
  inv st → next_power_of_two size = Some r → is_pow2 r →
  (total_memory st < r
   ∧ free st address size = (Raise RequestTooLarge_free, st))
  ∨ (r ≤ total_memory st
     ∧ allocated st !! address ≠ Some r
     ∧ free st address size = (Raise InvalidFree, st))
  ∨ (r ≤ total_memory st
     ∧ allocated st !! address = Some r
     ∧ ∃ fuel size' address' fl',
         coalesce fuel (total_memory st) r address (free_list st)
         = Some (size', address', fl')
         ∧ free st address size
           = (Return tt,
              mkBuddySystem (total_memory st)
                (<[size' := merge_sort Z.le (fl' !!! size' ++ [address'])]> fl')
                (delete address (allocated st)))).
Proof.
  intros Hinv Hnpot Hr. unfold free. rewrite Hnpot.
  case_bool_decide as Hbig; [left; split; [lia|done]|right].
  case_bool_decide as Hentry; [left; split_and!; [lia|done|done]|right].
  split; [lia|]. split; [done|].
  destruct (coalesce_total
              (Z.to_nat (total_memory st) + length (free_list st !!! 0))
              (total_memory st) r address (free_list st))
    as [[[size' address'] fl'] Hco].
  { by apply is_pow2_pos. }
  { apply coalesce_fuel. by apply is_pow2_pos. }
  eexists _, size', address', fl'. split; [exact Hco|]. by rewrite Hco.
Qed.

(** * The operations preserve the total weight *)

Section operations_conserve.
Variable f : Z → Z → Z.
Hypothesis f_split : ∀ a S, 0 < S → f a (S * 2) = f a S + f (a + S) S.

Lemma allocate_weight st size :
  inv st → 0 < size → weight f (allocate st size).2 = weight f st.
Proof.
  intros Hinv Hsize.
  destruct (next_power_of_two_total size) as [r Hnpot].
  destruct (next_power_of_two_is_pow2 _ _ Hsize Hnpot) as (Hr & _).
  destruct (allocate_cases st size r Hinv Hnpot Hr)
    as [[_ ->]|[(_ & _ & ->)|(_ & j & a & rest & HB & _ & Hl & ->)]];
    [done..|].
  unfold weight. simpl.
  pose proof (split_spec_weight f f_split j r a
                (<[r * 2 ^ Z.of_nat j := rest]> (free_list st))
                (is_pow2_pos _ Hr)) as Hsplit.
  rewrite free_weight_insert, Hl, bucket_weight_cons in Hsplit.
  rewrite alloc_weight_insert by (by eapply free_head_not_allocated).
  lia.
Qed.

Lemma free_weight_op st address size :
  inv st → 0 < size → weight f (free st address size).2 = weight f st.
Proof.
  intros Hinv Hsize.
  destruct (next_power_of_two_total size) as [r Hnpot].
  destruct (next_power_of_two_is_pow2 _ _ Hsize Hnpot) as (Hr & _).
  destruct (free_cases st address size r Hinv Hnpot Hr)
    as [[_ ->]|[(_ & _ & ->)
               |(_ & Ha & fuel & size' & address' & fl' & Hco & ->)]];
    [done..|].
  unfold weight. simpl.
  destruct (inv_alloc _ Hinv _ _ Ha) as (_ & Hdiv & _).
  pose proof (coalesce_weight f f_split _ _ _ _ _ _ _ _ Hr Hdiv Hco) as Hw.
  rewrite free_weight_insert, (alloc_weight_delete _ _ _ _ Ha).
  rewrite merge_sort_Permutation, bucket_weight_app, bucket_weight_cons,
    bucket_weight_nil.
  lia.
Qed.
End operations_conserve.

(** * The operations preserve the invariant *)

Lemma allocate_total_memory st size :
  total_memory (allocate st size).2 = total_memory st.
Proof. unfold allocate. by repeat case_match. Qed.

Lemma free_total_memory st address size :
  total_memory (free st address size).2 = total_memory st.
Proof. unfold free. by repeat case_match. Qed.

(** Below the block size the scan stops at, the lists of the sizes the
    split goes through are empty. *)
Lemma chain_lists_empty fl r (j i : nat) :
  0 < r → (∀ S, suitable fl r S → r * 2 ^ Z.of_nat j ≤ S) → (i < j)%nat →
  fl !!! (r * 2 ^ Z.of_nat i) = [].
Proof.
  intros Hr Hmin Hi. destruct (fl !!! (r * 2 ^ Z.of_nat i)) eqn:Hl; [done|].
  pose proof (pow2_nat_pos i). pose proof (pow2_nat_lt i j Hi).
  assert (suitable fl r (r * 2 ^ Z.of_nat i)) as Hs%Hmin; [|nia].
  split; [nia|]. by rewrite Hl.
Qed.

Lemma allocate_inv st size : inv st → 0 < size → inv (allocate st size).2.
Proof.
  intros Hinv Hsize.
  assert (fl_wf (total_memory st) (free_list (allocate st size).2)
          ∧ ∀ a S, allocated (allocate st size).2 !! a = Some S →
              is_pow2 S ∧ (S | a) ∧ 0 ≤ a ∧ a + S ≤ total_memory st)
    as [Hfl Hal].
  { destruct (next_power_of_two_total size) as [r Hnpot].
    destruct (next_power_of_two_is_pow2 _ _ Hsize Hnpot) as (Hr & _).
    pose proof (is_pow2_pos r Hr) as Hrpos.
    destruct (allocate_cases st size r Hinv Hnpot Hr)
      as [[_ ->]|[(_ & _ & ->)|(_ & j & a & rest & HB & Hmin & Hl & ->)]];
      [split; [apply Hinv|apply Hinv]..|].
    simpl.
    assert (free_list st !! (r * 2 ^ Z.of_nat j) = Some (a :: rest)) as Hl'.
    { rewrite <- Hl. apply lookup_total_nonempty. by rewrite Hl. }
    destruct (fl_aligned _ _ (inv_free _ Hinv) _ _ a Hl')
      as (Hdiv & H0 & Hhi); [by left|].
    pose proof (pow2_nat_pos j) as Hj.
    split.
    - apply split_spec_wf; try done.
      + eapply fl_wf_shrink; [apply Hinv|done|..].
        * intros x Hx. by right.
        * pose proof (fl_sorted _ _ (inv_free _ Hinv) _ _ Hl') as Hs.
          by inversion Hs.
      + intros i Hi. rewrite lookup_total_insert_ne.
        * by eapply chain_lists_empty.
        * intros Heq. apply chain_injective in Heq; lia.
    - intros a' S' [[<- <-]|[? ?]]%lookup_insert_Some; [|by apply Hinv].
      split_and!; [done| |done|nia].
      etrans; [|exact Hdiv]. by exists (2 ^ Z.of_nat j); lia. }
  split.
  - rewrite allocate_total_memory. apply Hinv.
  - by rewrite allocate_total_memory.
  - by rewrite allocate_total_memory.
  - intros x. unfold cover_count.
    rewrite allocate_weight, allocate_total_memory by auto using covers_split.
    apply Hinv.
  - unfold total_size.
    rewrite allocate_weight, allocate_total_memory by (done || (intros; lia)).
    apply Hinv.
Qed.

Lemma free_inv st address size :
  inv st → 0 < size → inv (free st address size).2.
Proof.
  intros Hinv Hsize.
  assert (fl_wf (total_memory st) (free_list (free st address size).2)
          ∧ ∀ a S, allocated (free st address size).2 !! a = Some S →
              is_pow2 S ∧ (S | a) ∧ 0 ≤ a ∧ a + S ≤ total_memory st)
    as [Hfl Hal].
  { destruct (next_power_of_two_total size) as [r Hnpot].
    destruct (next_power_of_two_is_pow2 _ _ Hsize Hnpot) as (Hr & _).
    destruct (free_cases st address size r Hinv Hnpot Hr)
      as [[_ ->]|[(_ & _ & ->)
                 |(_ & Ha & fuel & size' & address' & fl' & Hco & ->)]];
      [split; [apply Hinv|apply Hinv]..|].
    simpl. destruct (inv_alloc _ Hinv _ _ Ha) as (_ & Hdiv & H0 & Hhi).
    destruct (coalesce_wf _ _ _ _ _ _ _ _ Hr Hdiv H0 Hhi (inv_free _ Hinv) Hco)
      as (Hs' & Hdiv' & H0' & Hhi' & Hwf' & Hbuddy).
    split.
    - apply fl_wf_insert_sorted; try done. lia.
    - intros a' S' [_ ?]%lookup_delete_Some. by apply Hinv. }
  split.
  - rewrite free_total_memory. apply Hinv.
  - by rewrite free_total_memory.
  - by rewrite free_total_memory.
  - intros x. unfold cover_count.
    rewrite free_weight_op, free_total_memory by auto using covers_split.
    apply Hinv.
  - unfold total_size.
    rewrite free_weight_op, free_total_memory by (done || (intros; lia)).
    apply Hinv.
Qed.

(** A freshly constructed allocator of positive size satisfies the
    invariant. *)
Lemma construct_inv total st :
  0 < total → construct total = Return st → inv st.
Proof.
  intros Hpos. unfold construct. case_bool_decide as Hland; [done|].
  intros [= <-].
  apply land_pred_zero_iff in Hland as [->|Hp]; [lia|].
  split; simpl.
  - done.
  - split.
    + intros S l [<- <-]%lookup_singleton_Some. split; [done|lia].
    + intros S l a [<- <-]%lookup_singleton_Some ->%list_elem_of_singleton.
      split; [apply Z.divide_0_r|lia].
    + intros S l [<- <-]%lookup_singleton_Some. repeat constructor.
    + intros S l a [<- <-]%lookup_singleton_Some ->%list_elem_of_singleton.
      rewrite Z.lxor_0_l. intros ?%list_elem_of_singleton. lia.
  - intros a S. by rewrite lookup_empty.
  - intros x. unfold cover_count, weight, free_weight, alloc_weight. simpl.
    rewrite map_sum_empty. unfold map_sum. rewrite map_to_list_singleton. simpl.
    unfold bucket_weight, covers. simpl. repeat case_bool_decide; lia.
  - unfold total_size, weight, free_weight, alloc_weight. simpl.
    rewrite map_sum_empty. unfold map_sum. rewrite map_to_list_singleton. simpl.
    unfold bucket_weight. simpl. lia.
Qed.

(** * Every reachable state satisfies the invariant *)

Lemma reachable_inv st : reachable st → inv st.
Proof.
  induction 1; eauto using construct_inv, allocate_inv, free_inv.
Qed.

(** * From counting to the partition *)

Lemma covers_inside x a S : a ≤ x < a + S → covers x a S = 1.
Proof. intros Hx. unfold covers. by rewrite bool_decide_eq_true_2. Qed.

Lemma covers_pos x a S : 0 < covers x a S → a ≤ x < a + S.
Proof. unfold covers. case_bool_decide; [done|lia]. Qed.

Lemma sumZ_pos_elem l : 0 < sumZ l → ∃ x, x ∈ l ∧ 0 < x.
Proof.
  induction l as [|y l IH]; simpl; [lia|]. intros Hpos.
  destruct (decide (0 < y)) as [Hy|Hy].
  - exists y. split; [by left|done].
  - destruct IH as (x & Hx & Hxpos); [lia|]. exists x. split; [by right|done].
Qed.

Lemma map_sum_pos `{Countable K} {V : Type} (g : K → V → Z) (m : gmap K V) :
  0 < map_sum g m → ∃ k v, m !! k = Some v ∧ 0 < g k v.
Proof.
  intros (x & Hx & Hpos)%sumZ_pos_elem.
  apply list_elem_of_In, in_map_iff in Hx as ([k v] & <- & Hin).
  exists k, v. split; [|done]. by apply elem_of_map_to_list, list_elem_of_In.
Qed.

Lemma bucket_weight_pos f S l :
  0 < bucket_weight f S l → ∃ a, a ∈ l ∧ 0 < f a S.
Proof.
  intros (x & Hx & Hpos)%sumZ_pos_elem.
  apply list_elem_of_In, in_map_iff in Hx as (a & <- & Hin).
  exists a. split; [|done]. by apply list_elem_of_In.
Qed.

Lemma map_sum_lookup2_le `{Countable K} {V : Type} (g : K → V → Z)
    (m : gmap K V) k v k' v' :
  (∀ k v, 0 ≤ g k v) → k ≠ k' → m !! k = Some v → m !! k' = Some v' →
  g k v + g k' v' ≤ map_sum g m.
Proof.
  intros Hg Hne Hk Hk'. rewrite (map_sum_delete g m k v Hk).
  assert (delete k m !! k' = Some v') as Hd by (by rewrite lookup_delete_ne).
  pose proof (map_sum_lookup_le g Hg _ _ _ Hd). lia.
Qed.

Lemma bucket_weight_lookup_le x S l (i : nat) a :
  l !! i = Some a → covers x a S ≤ bucket_weight (covers x) S l.
Proof.
  revert i. induction l as [|b l IH]; intros [|i] Hi; simplify_eq/=;
    rewrite bucket_weight_cons.
  - pose proof (bucket_weight_covers_nonneg x S l). lia.
  - pose proof (covers_nonneg x b S). pose proof (IH i Hi). lia.
Qed.

Lemma bucket_weight_lookup2_le x S l (i j : nat) a a' :
  i ≠ j → l !! i = Some a → l !! j = Some a' →
  covers x a S + covers x a' S ≤ bucket_weight (covers x) S l.
Proof.
  revert i j. induction l as [|b l IH]; intros [|i] [|j] Hne Hi Hj;
    simplify_eq/=; rewrite bucket_weight_cons.
  - pose proof (bucket_weight_lookup_le x S l j a' Hj). lia.
  - pose proof (bucket_weight_lookup_le x S l i a Hi). lia.
  - pose proof (covers_nonneg x b S).
    pose proof (IH i j ltac:(lia) Hi Hj). lia.
Qed.

(** A state that satisfies the invariant partitions its memory. *)
Lemma inv_partitions st : inv st → partitions st.
Proof.
  intros Hinv.
  assert (∀ x, 0 ≤ free_weight (covers x) (free_list st)) as Hfw.
  { intros x. apply map_sum_nonneg. apply bucket_weight_covers_nonneg. }
  assert (∀ x, 0 ≤ alloc_weight (covers x) (allocated st)) as Haw.
  { intros x. apply map_sum_nonneg. apply covers_nonneg. }
  assert (∀ x, free_weight (covers x) (free_list st)
               + alloc_weight (covers x) (allocated st) ≤ 1) as Hle.
  { intros x. pose proof (inv_cover _ Hinv x) as Hc.
    unfold cover_count, weight in Hc. case_bool_decide; lia. }
  assert (∀ x S a, a ∈ free_list st !!! S → a ≤ x < a + S →
            1 ≤ free_weight (covers x) (free_list st)) as Hfree.
  { intros x S a Ha Hx. pose proof (elem_of_lookup_total _ _ _ Ha) as Hl.
    apply list_elem_of_lookup in Ha as [i Hi].
    pose proof (bucket_weight_lookup_le x S _ i a Hi) as H1.
    pose proof (map_sum_lookup_le (bucket_weight (covers x))
                  (bucket_weight_covers_nonneg x) _ _ _ Hl) as H2.
    rewrite covers_inside in H1 by done. unfold free_weight. lia. }
  assert (∀ x a S, allocated st !! a = Some S → a ≤ x < a + S →
            1 ≤ alloc_weight (covers x) (allocated st)) as Halloc.
  { intros x a S Ha Hx.
    pose proof (map_sum_lookup_le (covers x) (covers_nonneg x) _ _ _ Ha) as H1.
    rewrite covers_inside in H1 by done. unfold alloc_weight. lia. }
  split.
  - intros S a Hl%elem_of_lookup_total.
    by destruct (fl_keys _ _ (inv_free _ Hinv) _ _ Hl) as [?%is_pow2_pos _].
  - intros a S Ha.
    by destruct (inv_alloc _ Hinv _ _ Ha) as [?%is_pow2_pos _].
  - intros S a Ha. pose proof (elem_of_lookup_total _ _ _ Ha) as Hl.
    by destruct (fl_aligned _ _ (inv_free _ Hinv) _ _ _ Hl Ha) as (_ & ? & ?).
  - intros a S Ha. by destruct (inv_alloc _ Hinv _ _ Ha) as (_ & _ & ? & ?).
  - intros x Hx. pose proof (inv_cover _ Hinv x) as Hc.
    rewrite bool_decide_eq_true_2 in Hc by done.
    unfold cover_count, weight in Hc.
    destruct (decide (0 < free_weight (covers x) (free_list st))) as [Hpos|Hz].
    + left. apply map_sum_pos in Hpos as (S & l & Hl & Hpos).
      apply bucket_weight_pos in Hpos as (a & Ha & Hpos%covers_pos).
      exists S, a. split; [|done]. by rewrite (lookup_total_correct _ _ _ Hl).
    + right. specialize (Hfw x).
      assert (0 < alloc_weight (covers x) (allocated st)) as Hpos by lia.
      apply map_sum_pos in Hpos as (a & S & Ha & Hpos%covers_pos). eauto.
  - intros S a a' S' Ha Ha' (x & Hx & Hx').
    pose proof (Hfree x S a Ha Hx). pose proof (Halloc x a' S' Ha' Hx').
    specialize (Hle x). lia.
  - intros a S a' S' Ha Ha' Hne (x & Hx & Hx').
    pose proof (map_sum_lookup2_le (covers x) _ _ _ _ _
                  (covers_nonneg x) Hne Ha Ha') as H2.
    rewrite !covers_inside in H2 by done.
    specialize (Hle x). specialize (Hfw x). unfold alloc_weight in *. lia.
  - intros S a S' a' Ha Ha' Hne (x & Hx & Hx').
    pose proof (elem_of_lookup_total _ _ _ Ha) as Hl.
    pose proof (elem_of_lookup_total _ _ _ Ha') as Hl'.
    apply list_elem_of_lookup in Ha as [i Hi].
    apply list_elem_of_lookup in Ha' as [i' Hi'].
    pose proof (bucket_weight_lookup_le x S _ i a Hi) as H1.
    pose proof (bucket_weight_lookup_le x S' _ i' a' Hi') as H1'.
    pose proof (map_sum_lookup2_le (bucket_weight (covers x)) _ _ _ _ _
                  (bucket_weight_covers_nonneg x) Hne Hl Hl') as H2.
    rewrite covers_inside in H1, H1' by done.
    specialize (Hle x). specialize (Haw x). unfold free_weight in *. lia.
  - intros S i j a a' Hi Hj Hne (x & Hx & Hx').
    assert (a ∈ free_list st !!! S) as Hl%elem_of_lookup_total
      by (by eapply list_elem_of_lookup_2).
    pose proof (bucket_weight_lookup2_le x S _ i j a a' Hne Hi Hj) as H1.
    pose proof (map_sum_lookup_le (bucket_weight (covers x))
                  (bucket_weight_covers_nonneg x) _ _ _ Hl) as H2.
    rewrite !covers_inside in H1 by done.
    specialize (Hle x). specialize (Haw x). unfold free_weight in *. lia.
Qed.

(** * The loops always run to completion

    The iteration budgets of the model are never exhausted, whatever the
    state and the arguments: a call returns, or raises one of the errors of
    the source. *)

Lemma next_power_of_two_nonneg size r :
  next_power_of_two size = Some r → 0 ≤ r.
Proof.
  destruct (Z.lt_trichotomy size 0) as [Hn|[->|Hn]].
  - unfold next_power_of_two.
    rewrite bool_decide_eq_false_2 by (by apply land_pred_neg).
    destruct (Z.to_nat size); simpl; rewrite bool_decide_eq_false_2 by lia;
      intros [= <-]; lia.
  - intros [= <-]. lia.
  - intros (?%is_pow2_pos & _)%next_power_of_two_is_pow2; lia.
Qed.

Lemma split_total fuel block_size size address fl :
  0 ≤ size → block_size ≤ Z.of_nat fuel →
  is_Some (split fuel block_size size address fl).
Proof.
  intros Hsize. revert block_size fl.
  induction fuel as [|fuel IH]; intros block_size fl Hfuel.
  - simpl. rewrite bool_decide_eq_false_2 by lia. eauto.
  - rewrite split_S. case_bool_decide; [|eauto]. apply IH.
    assert (block_size `div` 2 < block_size)
      by (apply Z.div_lt; lia).
    lia.
Qed.

Lemma coalesce_zero_total fuel total address fl :
  (length (fl !!! 0%Z) ≤ fuel)%nat →
  is_Some (coalesce fuel total 0 address fl).
Proof.
  revert fl. induction fuel as [|fuel IH]; intros fl Hfuel;
    rewrite coalesce_unfold, Z.lxor_0_r.
  - case_bool_decide; [|eauto]. case_bool_decide as Hin; [|eauto].
    destruct (fl !!! 0); [by apply elem_of_nil in Hin|simpl in Hfuel; lia].
  - case_bool_decide; [|eauto]. case_bool_decide as Hin; [|eauto].
    rewrite Z.min_id. change (0 * 2) with 0. apply IH.
    rewrite lookup_total_insert_eq.
    apply remove_first_perm, Permutation_length in Hin.
    simpl in Hin. lia.
Qed.

Lemma allocate_outcome st size :
  (∃ a, (allocate st size).1 = Return a)
  ∨ (allocate st size).1 = Raise RequestTooLarge_allocate
  ∨ (allocate st size).1 = Raise NoSuitableBlock.
Proof.
  destruct (next_power_of_two_total size) as [r Hnpot].
  pose proof (next_power_of_two_nonneg _ _ Hnpot) as Hr.
  unfold allocate. rewrite Hnpot. case_bool_decide; [by auto|].
  destruct (list_find _ _) as [[i B]|] eqn:Hfind; [|by auto].
  apply first_fit_Some in Hfind as [[_ Hne] _].
  destruct (free_list st !!! B) as [|a rest]; [done|].
  destruct (split_total (Z.to_nat B) B r a (<[B := rest]> (free_list st)))
    as [fl ->]; [done|lia|]. eauto.
Qed.

Lemma free_outcome st address size :
  (free st address size).1 = Return tt
  ∨ (free st address size).1 = Raise RequestTooLarge_free
  ∨ (free st address size).1 = Raise InvalidFree.
Proof.
  destruct (next_power_of_two_total size) as [r Hnpot].
  pose proof (next_power_of_two_nonneg _ _ Hnpot) as Hr.
  unfold free. rewrite Hnpot. case_bool_decide; [by auto|].
  case_bool_decide; [by auto|].
  assert (is_Some (coalesce
            (Z.to_nat (total_memory st) + length (free_list st !!! 0))
            (total_memory st) r address (free_list st)))
    as [[[size' address'] fl'] ->]; [|by auto].
  destruct (decide (r = 0)) as [->|].
  - apply coalesce_zero_total. lia.
  - apply coalesce_total; [lia|]. apply coalesce_fuel. lia.
Qed.

(** * Coalescing undoes a split *)

(** When the lists of the sizes [r], [2r], ..., below [r * 2 ^ j] hold
    exactly the upper halves that a split of the block at [a] leaves, the
    loop started on [(a, r)] empties them and climbs to [(a, r * 2 ^ j)]. *)
Lemma coalesce_chain total a (j : nat) : ∀ r fl fuel,
  is_pow2 r → (r * 2 ^ Z.of_nat j | a) → r * 2 ^ Z.of_nat j ≤ total →
  (∀ i : nat, (i < j)%nat →
     fl !!! (r * 2 ^ Z.of_nat i) = [a + r * 2 ^ Z.of_nat i]) →
  (j ≤ fuel)%nat →
  ∃ fl',
    coalesce fuel total r a fl
    = coalesce (fuel - j) total (r * 2 ^ Z.of_nat j) a fl'
    ∧ (∀ i : nat, (i < j)%nat → fl' !!! (r * 2 ^ Z.of_nat i) = [])
    ∧ (∀ S, (∀ i : nat, (i < j)%nat → S ≠ r * 2 ^ Z.of_nat i) →
         fl' !!! S = fl !!! S).
Proof.
  induction j as [|j IH]; intros r fl fuel Hr Hdiv Hle Hchain Hfuel.
  - exists fl. replace (r * 2 ^ Z.of_nat 0) with r by (simpl; lia).
    rewrite Nat.sub_0_r. split_and!; [done|lia|done].
  - destruct fuel as [|fuel]; [lia|].
    pose proof (is_pow2_pos r Hr) as Hrpos. pose proof (pow2_nat_pos j) as Hj.
    assert (r * 2 * 2 ^ Z.of_nat j = r * 2 ^ Z.of_nat (S j)) as Hscale
      by (rewrite pow2_nat_succ; lia).
    assert (r * 2 | a) as Hdiv2.
    { etrans; [|exact Hdiv]. exists (2 ^ Z.of_nat j). lia. }
    pose proof (Hchain 0%nat ltac:(lia)) as Hfirst.
    replace (r * 2 ^ Z.of_nat 0) with r in Hfirst by (simpl; lia).
    destruct (IH (r * 2) (<[r := []]> fl) fuel) as (fl' & Heq & Hempty & Hother).
    + by apply is_pow2_double.
    + by rewrite Hscale.
    + by rewrite Hscale.
    + intros i Hi. rewrite lookup_total_insert_ne by nia.
      replace (r * 2 * 2 ^ Z.of_nat i) with (r * 2 ^ Z.of_nat (S i))
        by (rewrite pow2_nat_succ; lia).
      apply Hchain. lia.
    + lia.
    + exists fl'. split_and!.
      * rewrite coalesce_unfold, bool_decide_eq_true_2 by nia.
        rewrite lxor_even_multiple, Hfirst by done.
        rewrite bool_decide_eq_true_2 by (by left).
        rewrite remove_first_head, Z.min_l by lia.
        rewrite Heq, Hscale. done.
      * intros [|i] Hi.
        -- replace (r * 2 ^ Z.of_nat 0) with r by (simpl; lia).
           rewrite Hother, lookup_total_insert_eq; [done|].
           intros i' _. pose proof (pow2_nat_pos i'). nia.
        -- replace (r * 2 ^ Z.of_nat (S i)) with (r * 2 * 2 ^ Z.of_nat i)
             by (rewrite pow2_nat_succ; lia).
           apply Hempty. lia.
      * intros S HS. rewrite Hother.
        -- apply lookup_total_insert_ne. intros ->. apply (HS 0%nat); [lia|].
           simpl. lia.
        -- intros i Hi ->. apply (HS (Datatypes.S i)); [lia|].
           rewrite pow2_nat_succ. lia.
Qed.

(** * The model on concrete inputs *)

Example next_power_of_two_values :
  next_power_of_two 1 = Some 1
  ∧ next_power_of_two 200 = Some 256
  ∧ next_power_of_two 256 = Some 256
  ∧ next_power_of_two 0 = Some 0
  ∧ next_power_of_two (-5) = Some 1.
Proof. by vm_compute. Qed.

(** The counting notices a block that is both free and allocated, and a
    part of the memory that no block accounts for. *)
Example cover_count_overlap :
  cover_count 0 (mkBuddySystem 1024 {[ 1024 := [0] ]} {[ 0 := 256 ]}) = 2.
Proof. by vm_compute. Qed.

Example cover_count_gap :
  cover_count 600 (mkBuddySystem 1024 {[ 512 := [0] ]} ∅) = 0.
Proof. by vm_compute. Qed.

(** Exhaustion: once the whole memory is allocated, a request of one unit
    finds no block. *)
Example exhaustion :
  (allocate fresh_1024 1024).1 = Return 0
  ∧ (allocate (allocate fresh_1024 1024).2 1).1 = Raise NoSuitableBlock.
Proof. by vm_compute. Qed.

(** * The example states are reachable *)

Lemma fresh_1024_reachable : reachable fresh_1024.
Proof. by apply (reachable_construct 1024). Defined.

Lemma busy_1024_reachable : reachable busy_1024.
Proof.
  unfold busy_1024.
  apply reachable_free; [|done].
  apply reachable_allocate; [|done].
  apply reachable_allocate; [|done].
  apply fresh_1024_reachable.
Defined.

(** * The properties of the specification *)

(** C1. Conservation: in every state reachable from a freshly constructed
    allocator by calls of [allocate] and [free] with positive sizes (failed
    calls included), the blocks of [free_list] and [allocated] partition
    [0, total_memory): they do not overlap and leave no gap, that is, every
    address of the memory lies in exactly one block and every other address
    in none; and the sizes of all blocks add up to [total_memory]. *)
Theorem conservation st :
  reachable st →
  partitions st
  ∧ (∀ x, cover_count x st
          = if bool_decide (0 ≤ x < total_memory st) then 1 else 0)
  ∧ total_size st = total_memory st.
Proof.
  intros Hinv%reachable_inv. split_and!.
  - by apply inv_partitions.
  - apply Hinv.
  - apply Hinv.
Qed.

Lemma conservation_witness :
  partitions busy_1024
  ∧ (∀ x, cover_count x busy_1024
          = if bool_decide (0 ≤ x < total_memory busy_1024) then 1 else 0)
  ∧ total_size busy_1024 = total_memory busy_1024.
Proof. exact (conservation busy_1024 busy_1024_reachable). Defined.

(** C2. [__init__] accepts [total_memory = 0], which is not a power of two:
    the test [total_memory & (total_memory - 1) != 0] is false for it. *)
Theorem construct_accepts_zero :
  ¬ is_pow2 0 ∧ construct 0 = Return (mkBuddySystem 0 {[ 0 := [0] ]} ∅).
Proof. split; [|done]. intros ?%is_pow2_pos. lia. Qed.

(** Apart from zero, construction behaves as documented: it raises exactly
    on the integers that are not powers of two, and otherwise returns the
    state with the whole memory free. *)
Lemma construct_nonzero total :
  total ≠ 0 →
  (construct total = Raise NotPowerOfTwo ↔ ¬ is_pow2 total)
  ∧ (is_pow2 total →
     construct total = Return (mkBuddySystem total {[ total := [0] ]} ∅)).
Proof.
  intros Hne. unfold construct. pose proof (land_pred_zero_iff total) as Hiff.
  case_bool_decide as Hland; split; try done.
  - split; [|done]. intros _ Hp. apply Hland, Hiff. by right.
  - intros Hp. destruct Hland. apply Hiff. by right.
  - split; [done|]. intros Hnp. apply Hiff in Hland as [?|?]; done.
Qed.

(** C7. Alignment: in every reachable state, an address returned by
    [allocate] is a multiple of the rounded request, every address in
    [free_list] is a multiple of the size it is listed under, and every
    allocated address is a multiple of its recorded size. *)
Theorem alignment st :
  reachable st →
  (∀ size a st', 0 < size → allocate st size = (Return a, st') →
     ∃ r, next_power_of_two size = Some r ∧ a `mod` r = 0)
  ∧ (∀ S a, a ∈ free_list st !!! S → a `mod` S = 0)
  ∧ (∀ a S, allocated st !! a = Some S → a `mod` S = 0).
Proof.
  intros Hreach. pose proof (reachable_inv _ Hreach) as Hinv.
  assert (∀ st, inv st → ∀ a S, allocated st !! a = Some S → a `mod` S = 0)
    as Halloc.
  { intros st1 Hinv1 a S Ha.
    destruct (inv_alloc _ Hinv1 _ _ Ha) as (HS%is_pow2_pos & Hdiv & _).
    apply Z.mod_divide; [lia|done]. }
  split_and!.
  - intros size a st' Hsize Hcall.
    destruct (next_power_of_two_total size) as [r Hnpot].
    exists r. split; [done|].
    apply (Halloc st'); [|].
    + replace st' with (allocate st size).2 by (by rewrite Hcall).
      by apply allocate_inv.
    + destruct (next_power_of_two_is_pow2 _ _ Hsize Hnpot) as (Hr & _).
      destruct (allocate_cases st size r Hinv Hnpot Hr)
        as [[_ Heq]|[(_ & _ & Heq)|(_ & j & a' & rest & _ & _ & _ & Heq)]];
        rewrite Heq in Hcall; simplify_eq. simpl. apply lookup_insert_eq.
  - intros S a Ha. pose proof (elem_of_lookup_total _ _ _ Ha) as Hl.
    destruct (fl_keys _ _ (inv_free _ Hinv) _ _ Hl) as [HS%is_pow2_pos _].
    destruct (fl_aligned _ _ (inv_free _ Hinv) _ _ _ Hl Ha) as (Hdiv & _).
    apply Z.mod_divide; [lia|done].
  - by apply Halloc.
Qed.

Lemma alignment_witness :
  (∀ size a st', 0 < size → allocate busy_1024 size = (Return a, st') →
     ∃ r, next_power_of_two size = Some r ∧ a `mod` r = 0)
  ∧ (∀ S a, a ∈ free_list busy_1024 !!! S → a `mod` S = 0)
  ∧ (∀ a S, allocated busy_1024 !! a = Some S → a `mod` S = 0).
Proof. exact (alignment busy_1024 busy_1024_reachable). Defined.

(** C10. Eager coalescing: in every reachable state no list of [free_list]
    holds an address together with its buddy. *)
Theorem eager_coalescing st :
  reachable st →
  ∀ S A, A ∈ free_list st !!! S → Z.lxor A S ∉ free_list st !!! S.
Proof.
  intros Hinv%reachable_inv S A HA.
  pose proof (elem_of_lookup_total _ _ _ HA) as Hl.
  by eapply (fl_coalesced _ _ (inv_free _ Hinv)).
Qed.

Lemma eager_coalescing_witness :
  Z.lxor 384 128 ∉ free_list busy_1024 !!! 128.
Proof.
  apply (eager_coalescing busy_1024 busy_1024_reachable 128 384).
  vm_compute. constructor.
Defined.

(** C4. Lowest-address selection: in every reachable state every list of
    [free_list] is sorted in ascending order, and a successful [allocate]
    takes, from the list of the smallest suitable block size [B], an address
    that is the minimum of that list. *)
Theorem lowest_address st :
  reachable st →
  (∀ S, Sorted Z.le (free_list st !!! S))
  ∧ (∀ size a st', 0 < size → allocate st size = (Return a, st') →
       ∃ r B rest,
         next_power_of_two size = Some r
         ∧ suitable (free_list st) r B
         ∧ (∀ S, suitable (free_list st) r S → B ≤ S)
         ∧ free_list st !!! B = a :: rest
         ∧ (∀ a', a' ∈ free_list st !!! B → a ≤ a')
         ∧ free_list st' !!! B = rest).
Proof.
  intros Hinv%reachable_inv.
  assert (∀ S, Sorted Z.le (free_list st !!! S)) as Hsorted.
  { intros S. rewrite lookup_total_alt.
    destruct (free_list st !! S) as [l|] eqn:Hl; simpl; [|constructor].
    by eapply (fl_sorted _ _ (inv_free _ Hinv)). }
  split; [done|].
  intros size a st' Hsize Hcall.
  destruct (next_power_of_two_total size) as [r Hnpot].
  destruct (next_power_of_two_is_pow2 _ _ Hsize Hnpot) as (Hr & _).
  pose proof (is_pow2_pos r Hr) as Hrpos.
  destruct (allocate_cases st size r Hinv Hnpot Hr)
    as [[_ Heq]|[(_ & _ & Heq)|(_ & j & a' & rest & HB & Hmin & Hl & Heq)]];
    rewrite Heq in Hcall; simplify_eq.
  exists r, (r * 2 ^ Z.of_nat j), rest. split_and!; try done.
  - intros a' Ha'. rewrite Hl in Ha'.
    apply elem_of_cons in Ha' as [->|Ha']; [lia|].
    specialize (Hsorted (r * 2 ^ Z.of_nat j)). rewrite Hl in Hsorted.
    apply (Sorted_StronglySorted _) in Hsorted.
    inversion Hsorted as [|? ? _ Hall]; subst.
    by eapply Forall_forall in Hall.
  - simpl. rewrite split_spec_lookup_total_ne, lookup_total_insert_eq; [done|].
    intros i Hi Heq'. apply chain_injective in Heq'; lia.
Qed.

Lemma lowest_address_witness :
  (∀ S, Sorted Z.le (free_list busy_1024 !!! S))
  ∧ (∀ size a st', 0 < size → allocate busy_1024 size = (Return a, st') →
       ∃ r B rest,
         next_power_of_two size = Some r
         ∧ suitable (free_list busy_1024) r B
         ∧ (∀ S, suitable (free_list busy_1024) r S → B ≤ S)
         ∧ free_list busy_1024 !!! B = a :: rest
         ∧ (∀ a', a' ∈ free_list busy_1024 !!! B → a ≤ a')
         ∧ free_list st' !!! B = rest).
Proof. exact (lowest_address busy_1024 busy_1024_reachable). Defined.

(** C5. Failures of [allocate], in any state and for any positive request
    that rounds to [r]: the call raises the too-large error exactly when
    [r > total_memory]; when [r] fits, it raises the no-suitable-block error
    exactly when no size [B >= r] has a non-empty list; and a call that
    raises leaves the state as it was. *)
Theorem allocate_failure st size :
  0 < size →
  ∃ r, next_power_of_two size = Some r
    ∧ ((allocate st size).1 = Raise RequestTooLarge_allocate
       ↔ r > total_memory st)
    ∧ (¬ r > total_memory st →
       ((allocate st size).1 = Raise NoSuitableBlock
        ↔ ∀ B, r ≤ B → free_list st !!! B = []))
    ∧ (∀ e, (allocate st size).1 = Raise e → (allocate st size).2 = st).
Proof.
  intros Hsize. destruct (next_power_of_two_total size) as [r Hnpot].
  exists r. split; [done|]. unfold allocate. rewrite Hnpot.
  case_bool_decide as Hbig; [by split_and!|].
  destruct (list_find _ _) as [[i B]|] eqn:Hfind.
  - apply first_fit_Some in Hfind as [[Hle Hne] _].
    assert (¬ ∀ B, r ≤ B → free_list st !!! B = []) by (intros HB; auto).
    destruct (free_list st !!! B) as [|a rest]; [done|].
    destruct (split _ _ _ _ _); simpl; split_and!; try done;
      intros; split; done.
  - pose proof (first_fit_None _ _ Hfind) as Hnone. simpl.
    split_and!; [done| |done].
    intros _. split; [|done]. intros _ B HB.
    destruct (free_list st !!! B) eqn:Hl; [done|].
    destruct (Hnone B). split; [done|]. by rewrite Hl.
Qed.

Lemma allocate_failure_witness :
  ∃ r, next_power_of_two 2000 = Some r
    ∧ ((allocate busy_1024 2000).1 = Raise RequestTooLarge_allocate
       ↔ r > total_memory busy_1024)
    ∧ (¬ r > total_memory busy_1024 →
       ((allocate busy_1024 2000).1 = Raise NoSuitableBlock
        ↔ ∀ B, r ≤ B → free_list busy_1024 !!! B = []))
    ∧ (∀ e, (allocate busy_1024 2000).1 = Raise e →
         (allocate busy_1024 2000).2 = busy_1024).
Proof. apply (allocate_failure busy_1024 2000). lia. Defined.

(** C6. Failures of [free], in any state, for any address and any positive
    size that rounds to [r]: the call raises the too-large error exactly
    when [r > total_memory]; when [r] fits, it raises the invalid-free error
    exactly when the address is not allocated or is recorded with a size
    other than [r]; and a call that raises leaves the state as it was. *)
Theorem free_failure st address size :
  0 < size →
  ∃ r, next_power_of_two size = Some r
    ∧ ((free st address size).1 = Raise RequestTooLarge_free
       ↔ r > total_memory st)
    ∧ (¬ r > total_memory st →
       ((free st address size).1 = Raise InvalidFree
        ↔ (allocated st !! address = None
           ∨ ∃ s, allocated st !! address = Some s ∧ s ≠ r)))
    ∧ (∀ e, (free st address size).1 = Raise e → (free st address size).2 = st).
Proof.
  intros Hsize. destruct (next_power_of_two_total size) as [r Hnpot].
  exists r. split; [done|]. unfold free. rewrite Hnpot.
  case_bool_decide as Hbig; [by split_and!|].
  case_bool_decide as Hentry.
  - simpl. split_and!; [done| |done]. intros _. split; [|done]. intros _.
    destruct (allocated st !! address) as [s|]; [right|by left].
    exists s. split; [done|]. congruence.
  - assert (¬ (allocated st !! address = None
               ∨ ∃ s, allocated st !! address = Some s ∧ s ≠ r)).
    { rewrite Hentry. intros [?|(s & ? & ?)]; congruence. }
    destruct (coalesce _ _ _ _ _) as [[[size' address'] fl']|]; simpl;
      split_and!; try done; intros; split; done.
Qed.

Lemma free_failure_witness :
  ∃ r, next_power_of_two 100 = Some r
    ∧ ((free busy_1024 256 100).1 = Raise RequestTooLarge_free
       ↔ r > total_memory busy_1024)
    ∧ (¬ r > total_memory busy_1024 →
       ((free busy_1024 256 100).1 = Raise InvalidFree
        ↔ (allocated busy_1024 !! 256 = None
           ∨ ∃ s, allocated busy_1024 !! 256 = Some s ∧ s ≠ r)))
    ∧ (∀ e, (free busy_1024 256 100).1 = Raise e →
         (free busy_1024 256 100).2 = busy_1024).
Proof. apply (free_failure busy_1024 256 100). lia. Defined.

(** C8. The split/merge example on 1024 units: [allocate(200)] rounds to
    256 and returns 0, leaving 512 free at 512 and 256 free at 256;
    [allocate(100)] rounds to 128 and returns 256; then [free(0, 256)] and
    [free(256, 128)] coalesce everything back into the single free block of
    size 1024 at address 0. *)
Theorem split_merge_example :
  let s1 := mkBuddySystem 1024
              (<[256 := [256]]> (<[512 := [512]]> {[ 1024 := [] ]}))
              {[ 0 := 256 ]} in
  let s2 := mkBuddySystem 1024
              (<[128 := [384]]>
                 (<[256 := []]> (<[512 := [512]]> {[ 1024 := [] ]})))
              (<[256 := 128]> {[ 0 := 256 ]}) in
  let s3 := mkBuddySystem 1024
              (<[128 := [384]]>
                 (<[256 := [0]]> (<[512 := [512]]> {[ 1024 := [] ]})))
              {[ 256 := 128 ]} in
  let s4 := mkBuddySystem 1024
              (<[128 := []]>
                 (<[256 := []]> (<[512 := []]> {[ 1024 := [0] ]})))
              ∅ in
  construct 1024 = Return fresh_1024
  ∧ next_power_of_two 200 = Some 256
  ∧ allocate fresh_1024 200 = (Return 0, s1)
  ∧ next_power_of_two 100 = Some 128
  ∧ allocate s1 100 = (Return 256, s2)
  ∧ free s2 0 256 = (Return tt, s3)
  ∧ free s3 256 128 = (Return tt, s4)
  ∧ ∀ S, free_list s4 !!! S = if bool_decide (S = 1024) then [0] else [].
Proof.
  intros s1 s2 s3 s4. split_and!; try by vm_compute.
  intros S. subst s4. simpl.
  repeat (rewrite lookup_total_insert; case_decide; [subst; done|]).
  rewrite lookup_total_singleton. case_decide; [by subst|].
  by rewrite bool_decide_eq_false_2.
Qed.

(** With a request of 0 the split loop halves a block of size [2 ^ k] down
    to 0, and its last round appends the address itself to the list of
    size 0. *)
Lemma split_to_zero (k : nat) : ∀ fuel fl,
  (k < fuel)%nat →
  ∃ fl', split fuel (2 ^ Z.of_nat k) 0 0 fl = Some fl'
         ∧ fl' !!! 0 = fl !!! 0 ++ [0].
Proof.
  induction k as [|k IH]; intros fuel fl Hfuel;
    (destruct fuel as [|fuel]; [lia|]); rewrite split_S.
  - change (2 ^ Z.of_nat 0) with 1. rewrite bool_decide_eq_true_2 by lia.
    change (1 `div` 2) with 0. exists (push 0 (0 + 0) fl). split.
    + by destruct fuel.
    + apply lookup_total_push_eq.
  - pose proof (pow2_nat_pos k) as Hk. pose proof (pow2_nat_pos (S k)).
    rewrite bool_decide_eq_true_2 by lia.
    rewrite pow2_nat_succ, Z.div_mul by lia.
    destruct (IH fuel (push (2 ^ Z.of_nat k) (0 + 2 ^ Z.of_nat k) fl))
      as (fl' & -> & Hl); [lia|].
    exists fl'. split; [done|]. rewrite Hl, lookup_total_push_ne by lia. done.
Qed.

(** C9. [allocate(0)] on a fresh allocator of size [2 ^ k]: the request is
    rounded to 0, nothing is raised, the split loop runs down to block size
    0, and the call returns address 0, which is then both recorded in
    [allocated] (with size 0) and listed in [free_list] under size 0. *)
Theorem allocate_zero (k : nat) :
  ∃ st st',
    construct (2 ^ Z.of_nat k) = Return st
    ∧ allocate st 0 = (Return 0, st')
    ∧ allocated st' !! 0 = Some 0
    ∧ free_list st' !!! 0 = [0].
Proof.
  pose proof (pow2_nat_pos k) as Hk. pose proof (pow2_nat_gt_lin k) as Hlin.
  assert (is_pow2 (2 ^ Z.of_nat k)) as Hp by (exists (Z.of_nat k); lia).
  destruct (construct_nonzero (2 ^ Z.of_nat k)) as [_ Hc]; [lia|].
  eexists. rewrite (Hc Hp).
  destruct (split_to_zero k (Z.to_nat (2 ^ Z.of_nat k))
              (<[2 ^ Z.of_nat k := []]> {[ 2 ^ Z.of_nat k := [0] ]}))
    as (fl' & Hsplit & Hl); [lia|].
  eexists. split; [done|].
  unfold allocate. simpl total_memory. simpl free_list.
  change (next_power_of_two 0) with (Some 0). cbv beta iota.
  rewrite bool_decide_eq_false_2 by lia.
  unfold sorted_keys. rewrite map_to_list_singleton.
  change (merge_sort Z.le (fst <$> [(2 ^ Z.of_nat k, [0])]))
    with [2 ^ Z.of_nat k].
  simpl list_find. rewrite decide_True; last first.
  { split; [lia|]. by rewrite lookup_total_singleton_eq. }
  rewrite lookup_total_singleton_eq, Hsplit.
  split_and!; [done|apply lookup_insert_eq|].
  cbn [free_list].
  rewrite Hl, lookup_total_insert_ne, lookup_total_singleton_ne by lia. done.
Qed.

(** The free list is read as the specification reads it, as the sequence of
    free addresses of each block size: a size that is not a key and a size
    whose list is empty are the same free list.  The dictionary itself keeps
    the keys a split has created: on the fresh allocator of 1024 units,
    [allocate(200)] followed by [free(0, 200)] leaves the keys 512 and 256
    with empty lists, and every size has the list it had before. *)
Lemma round_trip_keeps_split_keys :
  let s1 := mkBuddySystem 1024
              (<[256 := [256]]> (<[512 := [512]]> {[ 1024 := [] ]}))
              {[ 0 := 256 ]} in
  let s2 := mkBuddySystem 1024
              (<[256 := []]> (<[512 := []]> {[ 1024 := [0] ]}))
              ∅ in
  reachable fresh_1024
  ∧ allocate fresh_1024 200 = (Return 0, s1)
  ∧ free s1 0 200 = (Return tt, s2)
  ∧ free_list s2 ≠ free_list fresh_1024
  ∧ ∀ S, free_list s2 !!! S = free_list fresh_1024 !!! S.
Proof.
  intros s1 s2. split_and!; [apply fresh_1024_reachable|by vm_compute..| |].
  - intros Heq. apply (f_equal (λ fl : gmap Z (list Z), fl !! 512)) in Heq.
    by vm_compute in Heq.
  - intros S. subst s2. unfold fresh_1024. cbn [free_list].
    repeat (rewrite lookup_total_insert; case_decide;
            [subst; by rewrite lookup_total_singleton_ne|]).
    done.
Qed.

(** C3. Round trip: in every reachable state, when [allocate] of a positive
    size returns an address, freeing that address with the same size right
    away succeeds and restores the free list to what it was before the
    allocation: every block size has the same list of free addresses as
    before. *)
Theorem round_trip st size a st1 :
  reachable st → 0 < size → allocate st size = (Return a, st1) →
  ∃ st2, free st1 a size = (Return tt, st2)
         ∧ ∀ S, free_list st2 !!! S = free_list st !!! S.
Proof.
  intros Hinv%reachable_inv Hsize Hcall.
  destruct (next_power_of_two_total size) as [r Hnpot].
  destruct (next_power_of_two_is_pow2 _ _ Hsize Hnpot) as (Hr & _).
  pose proof (is_pow2_pos r Hr) as Hrpos.
  destruct (allocate_cases st size r Hinv Hnpot Hr)
    as [[_ Heq]|[(_ & _ & Heq)|(Hfit & j & a' & rest & HB & Hmin & Hl & Heq)]];
    rewrite Heq in Hcall; simplify_eq.
  set (fl2 := split_spec j r a
                (<[r * 2 ^ Z.of_nat j := rest]> (free_list st))).
  assert (free_list st !! (r * 2 ^ Z.of_nat j) = Some (a :: rest)) as Hl'.
  { rewrite <- Hl. apply lookup_total_nonempty. by rewrite Hl. }
  destruct (fl_aligned _ _ (inv_free _ Hinv) _ _ a Hl')
    as (Hdiv & H0 & Hhi); [by left|].
  pose proof (fl_sorted _ _ (inv_free _ Hinv) _ _ Hl') as Hsorted.
  assert (Z.lxor a (r * 2 ^ Z.of_nat j) ∉ a :: rest) as Hbuddy.
  { apply (fl_coalesced _ _ (inv_free _ Hinv) _ _ a Hl'). by left. }
  pose proof (pow2_nat_pos j) as Hj. pose proof (pow2_nat_gt_lin j) as Hlin.
  assert (∀ i : nat, (i < j)%nat → r * 2 ^ Z.of_nat j ≠ r * 2 ^ Z.of_nat i)
    as Hchain_ne.
  { intros i Hi Heq'. apply chain_injective in Heq'; lia. }
  destruct (coalesce_chain (total_memory st) a j r fl2
              (Z.to_nat (total_memory st) + length (fl2 !!! 0)))
    as (fl' & Hco & Hempty & Hother); [done|done|lia| |nia|].
  { intros i Hi. unfold fl2.
    rewrite split_spec_lookup_total_chain, lookup_total_insert_ne by auto.
    by rewrite (chain_lists_empty _ r j i). }
  assert (fl' !!! (r * 2 ^ Z.of_nat j) = rest) as HflB.
  { rewrite Hother by done.
    unfold fl2. by rewrite split_spec_lookup_total_ne, lookup_total_insert_eq. }
  eexists. split.
  - unfold free. rewrite Hnpot. cbn [total_memory free_list allocated].
    rewrite bool_decide_eq_false_2 by lia.
    rewrite bool_decide_eq_false_2 by (rewrite lookup_insert_eq; auto).
    fold fl2. rewrite Hco, coalesce_stop; [done|].
    intros _. rewrite HflB. intros Hin. apply Hbuddy. by right.
  - intros S. cbn [free_list].
    rewrite HflB, merge_sort_snoc_head by done.
    destruct (decide (S = r * 2 ^ Z.of_nat j)) as [->|HSB].
    + by rewrite lookup_total_insert_eq.
    + rewrite lookup_total_insert_ne by done.
      destruct (chain_dec r j S) as [(i & Hi & ->)|Hnot].
      * rewrite Hempty by done. by rewrite (chain_lists_empty _ r j i).
      * rewrite Hother by done. unfold fl2.
        rewrite split_spec_lookup_total_ne, lookup_total_insert_ne by done.
        done.
Qed.

Lemma round_trip_witness :
  ∃ st2, free (allocate busy_1024 60).2 384 60 = (Return tt, st2)
         ∧ ∀ S, free_list st2 !!! S = free_list busy_1024 !!! S.
Proof.
  apply (round_trip busy_1024 60 384 (allocate busy_1024 60).2).
  - apply busy_1024_reachable.
  - lia.
  - by vm_compute.
Defined.

(** * Further properties of the size rounding *)

(** X1. For a positive request, [next_power_of_two] returns the least power
    of two that is not below the request. *)
Theorem next_power_of_two_least size :
  0 < size →
  ∃ r, next_power_of_two size = Some r
       ∧ is_pow2 r ∧ size ≤ r
       ∧ ∀ p, is_pow2 p → size ≤ p → r ≤ p.
Proof.
  intros Hsize. exists (2 ^ Z.log2_up size).
  pose proof (next_power_of_two_pos size Hsize) as Hnpot.
  destruct (next_power_of_two_is_pow2 _ _ Hsize Hnpot) as (Hr & Hle & _).
  split_and!; try done.
  intros p (q & Hq & ->) Hp.
  apply Z.pow_le_mono_r; [lia|]. by apply Z.log2_up_le_pow2.
Qed.

Lemma next_power_of_two_least_witness :
  ∃ r, next_power_of_two 200 = Some r
       ∧ is_pow2 r ∧ 200 ≤ r
       ∧ ∀ p, is_pow2 p → 200 ≤ p → r ≤ p.
Proof. apply (next_power_of_two_least 200). lia. Defined.

Lemma next_power_of_two_negative size :
  size < 0 → next_power_of_two size = Some 1.
Proof.
  intros Hn. unfold next_power_of_two.
  rewrite bool_decide_eq_false_2 by (by apply land_pred_neg).
  destruct (Z.to_nat size); simpl; by rewrite bool_decide_eq_false_2 by lia.
Qed.

Lemma next_power_of_two_fixed size r :
  next_power_of_two size = Some r → next_power_of_two r = Some r.
Proof.
  destruct (Z.lt_trichotomy size 0) as [Hn|[->|Hn]].
  - rewrite next_power_of_two_negative by done. by intros [= <-].
  - by intros [= <-].
  - intros Hnpot.
    destruct (next_power_of_two_is_pow2 _ _ Hn Hnpot) as (Hr & _).
    unfold next_power_of_two.
    by rewrite bool_decide_eq_true_2 by (by apply is_pow2_land).
Qed.

(** X2. Rounding is idempotent, and both operations depend on the size
    argument only through its rounding: for every integer [size], with [r]
    its rounding, [r] rounds to itself, [allocate(size)] does what
    [allocate(r)] does and [free(address, size)] does what
    [free(address, r)] does, in every state. *)
Theorem operations_use_rounded_size st address size :
  ∃ r, next_power_of_two size = Some r
       ∧ next_power_of_two r = Some r
       ∧ allocate st size = allocate st r
       ∧ free st address size = free st address r.
Proof.
  destruct (next_power_of_two_total size) as [r Hnpot].
  pose proof (next_power_of_two_fixed _ _ Hnpot) as Hfix.
  exists r. split_and!; try done.
  - unfold allocate. by rewrite Hnpot, Hfix.
  - unfold free. by rewrite Hnpot, Hfix.
Qed.

(** X3. A negative size is not rejected: it is rounded to 1, so
    [allocate] and [free] treat it as a request of one unit. *)
Theorem negative_size_is_one st address size :
  size < 0 →
  next_power_of_two size = Some 1
  ∧ allocate st size = allocate st 1
  ∧ free st address size = free st address 1.
Proof.
  intros Hn. pose proof (next_power_of_two_negative size Hn) as Hnpot.
  split_and!; [done|..].
  - unfold allocate. by rewrite Hnpot.
  - unfold free. by rewrite Hnpot.
Qed.

Lemma negative_size_is_one_witness :
  next_power_of_two (-7) = Some 1
  ∧ allocate busy_1024 (-7) = allocate busy_1024 1
  ∧ free busy_1024 256 (-7) = free busy_1024 256 1.
Proof. apply (negative_size_is_one busy_1024 256 (-7)). lia. Defined.

(** X4. On positive sizes the rounding is monotone. *)
Theorem next_power_of_two_monotone size1 size2 :
  0 < size1 → size1 ≤ size2 →
  ∃ r1 r2, next_power_of_two size1 = Some r1
           ∧ next_power_of_two size2 = Some r2 ∧ r1 ≤ r2.
Proof.
  intros H1 H12. exists (2 ^ Z.log2_up size1), (2 ^ Z.log2_up size2).
  rewrite !next_power_of_two_pos by lia. split_and!; try done.
  apply Z.pow_le_mono_r; [lia|]. by apply Z.log2_up_le_mono.
Qed.

Lemma next_power_of_two_monotone_witness :
  ∃ r1 r2, next_power_of_two 100 = Some r1
           ∧ next_power_of_two 200 = Some r2 ∧ r1 ≤ r2.
Proof. apply (next_power_of_two_monotone 100 200); lia. Defined.

(** * Further properties of [allocate] *)

(** The sizes a split goes through are the powers of two from the request
    up to, and without, the size of the block that is split. *)
Lemma chain_iff r (j : nat) S :
  is_pow2 r →
  (∃ i : nat, (i < j)%nat ∧ S = r * 2 ^ Z.of_nat i)
  ↔ is_pow2 S ∧ r ≤ S < r * 2 ^ Z.of_nat j.
Proof.
  intros Hr. pose proof (is_pow2_pos r Hr) as Hrpos. split.
  - intros (i & Hi & ->). pose proof (pow2_nat_pos i). pose proof (pow2_nat_lt i j Hi).
    split; [by apply is_pow2_scale|nia].
  - intros (HS & Hle & Hlt).
    destruct (is_pow2_le_factor r S Hr HS Hle) as [i ->].
    exists i. split; [|done].
    destruct (decide (i < j)%nat) as [|Hge]; [done|exfalso].
    assert (2 ^ Z.of_nat j ≤ 2 ^ Z.of_nat i) by (apply Z.pow_le_mono_r; lia).
    nia.
Qed.

(** X5. What a successful [allocate] leaves in [free_list], in a reachable
    state: with [r] the rounded request and [B] the size of the block taken,
    the list of [B] loses its head [a], which is returned; every power of
    two [S] with [r <= S < B] gets the single free block [a + S]; every
    other list is as before. *)
Theorem allocate_free_list st size a st' :
  reachable st → 0 < size → allocate st size = (Return a, st') →
  ∃ r B rest,
    next_power_of_two size = Some r ∧ is_pow2 B ∧ r ≤ B
    ∧ free_list st !!! B = a :: rest
    ∧ free_list st' !!! B = rest
    ∧ (∀ S, is_pow2 S → r ≤ S < B → free_list st' !!! S = [a + S])
    ∧ (∀ S, S ≠ B → ¬ (is_pow2 S ∧ r ≤ S < B) →
         free_list st' !!! S = free_list st !!! S).
Proof.
  intros Hinv%reachable_inv Hsize Hcall.
  destruct (next_power_of_two_total size) as [r Hnpot].
  destruct (next_power_of_two_is_pow2 _ _ Hsize Hnpot) as (Hr & _).
  pose proof (is_pow2_pos r Hr) as Hrpos.
  destruct (allocate_cases st size r Hinv Hnpot Hr)
    as [[_ Heq]|[(_ & _ & Heq)|(_ & j & a' & rest & HB & Hmin & Hl & Heq)]];
    rewrite Heq in Hcall; simplify_eq.
  pose proof (pow2_nat_pos j) as Hj.
  assert (∀ i : nat, (i < j)%nat → r * 2 ^ Z.of_nat j ≠ r * 2 ^ Z.of_nat i)
    as Hchain_ne.
  { intros i Hi Heq'. apply chain_injective in Heq'; lia. }
  exists r, (r * 2 ^ Z.of_nat j), rest. cbn [free_list].
  split_and!; try done.
  - by apply is_pow2_scale.
  - nia.
  - by rewrite split_spec_lookup_total_ne, lookup_total_insert_eq.
  - intros S HS Hrange.
    destruct (proj2 (chain_iff r j S Hr)) as (i & Hi & ->); [done|].
    rewrite split_spec_lookup_total_chain, lookup_total_insert_ne by auto.
    by rewrite (chain_lists_empty _ r j i).
  - intros S HSB Hnot.
    rewrite split_spec_lookup_total_ne, lookup_total_insert_ne; [done..|].
    intros i Hi ->. apply Hnot. apply chain_iff; eauto.
Qed.

Lemma allocate_free_list_witness :
  ∃ r B rest,
    next_power_of_two 60 = Some r ∧ is_pow2 B ∧ r ≤ B
    ∧ free_list busy_1024 !!! B = 384 :: rest
    ∧ free_list (allocate busy_1024 60).2 !!! B = rest
    ∧ (∀ S, is_pow2 S → r ≤ S < B →
         free_list (allocate busy_1024 60).2 !!! S = [384 + S])
    ∧ (∀ S, S ≠ B → ¬ (is_pow2 S ∧ r ≤ S < B) →
         free_list (allocate busy_1024 60).2 !!! S = free_list busy_1024 !!! S).
Proof.
  apply (allocate_free_list busy_1024 60 384 (allocate busy_1024 60).2).
  - apply busy_1024_reachable.
  - lia.
  - by vm_compute.
Defined.

(** X6. The block a successful [allocate] returns, in a reachable state: it
    lies inside the memory, its address was not allocated, it overlaps no
    block that was allocated, and the call records it in [allocated] without
    touching any other entry. *)
Theorem allocate_fresh_block st size a st' :
  reachable st → 0 < size → allocate st size = (Return a, st') →
  ∃ r, next_power_of_two size = Some r
       ∧ 0 ≤ a ∧ a + r ≤ total_memory st
       ∧ allocated st !! a = None
       ∧ (∀ a' S', allocated st !! a' = Some S' → ¬ overlap a r a' S')
       ∧ allocated st' = <[a := r]> (allocated st).
Proof.
  intros Hreach Hsize Hcall. pose proof (reachable_inv _ Hreach) as Hinv.
  assert (inv st') as Hinv'.
  { replace st' with (allocate st size).2 by (by rewrite Hcall).
    by apply allocate_inv. }
  destruct (next_power_of_two_total size) as [r Hnpot].
  destruct (next_power_of_two_is_pow2 _ _ Hsize Hnpot) as (Hr & _).
  destruct (allocate_cases st size r Hinv Hnpot Hr)
    as [[_ Heq]|[(_ & _ & Heq)|(_ & j & a' & rest & HB & Hmin & Hl & Heq)]];
    rewrite Heq in Hcall; simplify_eq.
  assert (allocated st !! a = None) as Hnew
    by (by eapply free_head_not_allocated).
  pose proof (inv_partitions _ Hinv') as Hpart.
  pose proof (part_alloc_range _ Hpart a r) as Hrange. cbn in Hrange.
  rewrite lookup_insert_eq in Hrange. specialize (Hrange eq_refl).
  exists r. split_and!; try done; try lia.
  - intros a' S' Ha'. apply (part_alloc_alloc _ Hpart); cbn.
    + apply lookup_insert_eq.
    + rewrite lookup_insert_ne; [done|]. congruence.
    + congruence.
Qed.

Lemma allocate_fresh_block_witness :
  ∃ r, next_power_of_two 60 = Some r
       ∧ 0 ≤ 384 ∧ 384 + r ≤ total_memory busy_1024
       ∧ allocated busy_1024 !! 384 = None
       ∧ (∀ a' S', allocated busy_1024 !! a' = Some S' →
            ¬ overlap 384 r a' S')
       ∧ allocated (allocate busy_1024 60).2
         = <[384 := r]> (allocated busy_1024).
Proof.
  apply (allocate_fresh_block busy_1024 60 384 (allocate busy_1024 60).2).
  - apply busy_1024_reachable.
  - lia.
  - by vm_compute.
Defined.

(** X7. [allocate] succeeds exactly when it can: in every state and for
    every positive request that rounds to [r], the call returns an address
    if and only if [r] is at most [total_memory] and the list of some size
    [B >= r] is not empty. *)
Theorem allocate_succeeds_iff st size :
  0 < size →
  ∃ r, next_power_of_two size = Some r
       ∧ ((∃ a, (allocate st size).1 = Return a)
          ↔ r ≤ total_memory st ∧ ∃ B, r ≤ B ∧ free_list st !!! B ≠ []).
Proof.
  intros Hsize. destruct (next_power_of_two_total size) as [r Hnpot].
  pose proof (next_power_of_two_nonneg _ _ Hnpot) as Hr.
  exists r. split; [done|]. unfold allocate. rewrite Hnpot.
  case_bool_decide as Hbig.
  { simpl. split; [by intros [a ?]|lia]. }
  destruct (list_find _ _) as [[i B]|] eqn:Hfind.
  - apply first_fit_Some in Hfind as [[Hle Hne] _].
    destruct (free_list st !!! B) as [|a rest] eqn:HlB; [done|].
    destruct (split_total (Z.to_nat B) B r a (<[B := rest]> (free_list st)))
      as [fl ->]; [done|lia|].
    simpl. split; [|by eauto]. intros _. split; [lia|].
    exists B. split; [done|]. by rewrite HlB.
  - pose proof (first_fit_None _ _ Hfind) as Hnone. simpl.
    split; [by intros [a ?]|]. intros (_ & B & HB & Hne).
    by destruct (Hnone B).
Qed.

Lemma allocate_succeeds_iff_witness :
  ∃ r, next_power_of_two 600 = Some r
       ∧ ((∃ a, (allocate busy_1024 600).1 = Return a)
          ↔ r ≤ total_memory busy_1024
            ∧ ∃ B, r ≤ B ∧ free_list busy_1024 !!! B ≠ []).
Proof. apply (allocate_succeeds_iff busy_1024 600). lia. Defined.

(** * No fragmentation is left when nothing is allocated *)

(** Two addresses in the same cell of a grid of step [D]: an interval whose
    ends are on the grid contains both or neither. *)
Lemma same_cell D P a b a' S' :
  0 < D → (D | P) → (D | a') → (D | S') →
  P ≤ a < P + D → P ≤ b < P + D → a' ≤ b < a' + S' →
  a' ≤ a < a' + S'.
Proof.
  intros HD [p ->] [u ->] [m ->] Ha Hb Hb'.
  assert (u ≤ p) by nia. assert (p + 1 ≤ u + m) by nia. nia.
Qed.

Lemma aligned_same_block S a b :
  0 < S → (S | a) → (S | b) → a ≤ b < a + S → a = b.
Proof. intros HS [p ->] [q ->] Hb. assert (p = q) by nia. by subst. Qed.

(** With nothing allocated, a free block smaller than the memory would have
    its buddy free as well, which eager coalescing excludes. *)
Lemma free_blocks_whole st S a :
  inv st → allocated st = ∅ → a ∈ free_list st !!! S → S = total_memory st.
Proof.
  intros Hinv Hempty. pose proof (inv_partitions _ Hinv) as Hpart.
  assert (∀ n : nat, ∀ S a, (Z.to_nat S < n)%nat → a ∈ free_list st !!! S →
            S = total_memory st) as Hind; [|by eauto].
  clear S a. induction n as [|n IH]; intros S a Hn Ha; [lia|].
  pose proof (elem_of_lookup_total _ _ _ Ha) as Hl.
  destruct (fl_keys _ _ (inv_free _ Hinv) _ _ Hl) as [HS _].
  destruct (fl_aligned _ _ (inv_free _ Hinv) _ _ _ Hl Ha) as (Hdiv & H0 & Hhi).
  pose proof (is_pow2_pos S HS) as HSpos.
  destruct (decide (S = total_memory st)) as [|Hne]; [done|exfalso].
  destruct (is_pow2_le_factor S (total_memory st) HS (inv_total _ Hinv))
    as [j Hj]; [lia|].
  destruct j as [|j]; [simpl in Hj; lia|]. rewrite pow2_nat_succ in Hj.
  pose proof (pow2_nat_pos j) as Hjpos.
  assert (S * 2 | total_memory st) as Htot.
  { rewrite Hj. exists (2 ^ Z.of_nat j). lia. }
  (* the enclosing block of twice the size, at [P], and the buddy [b] *)
  assert (∃ P b, b = Z.lxor a S ∧ (S * 2 | P) ∧ P ≤ a < P + S * 2
                 ∧ P ≤ b < P + S * 2 ∧ 0 ≤ b < total_memory st)
    as (P & b & Hb & HP & HaP & HbP & Hbrange).
  { destruct (buddy_cases S a HS Hdiv) as [[Hx Hd]|[Hx Hd]].
    - exists a, (a + S). split_and!; try done; try lia.
      destruct Hd as [h Hh], Htot as [t Ht].
      assert (h < t) by nia. nia.
    - exists (a - S), (a - S). split_and!; try done; try lia.
      destruct Hd as [h Hh]. assert (0 ≤ h) by nia. nia. }
  destruct (part_no_gap _ Hpart b Hbrange)
    as [(S' & a' & Ha' & Hin)|(a' & S' & Ha' & _)];
    [|by rewrite Hempty, lookup_empty in Ha'].
  pose proof (elem_of_lookup_total _ _ _ Ha') as Hl'.
  destruct (fl_keys _ _ (inv_free _ Hinv) _ _ Hl') as [HS' _].
  destruct (fl_aligned _ _ (inv_free _ Hinv) _ _ _ Hl' Ha') as (Hdiv' & _ & _).
  pose proof (is_pow2_pos S' HS') as HS'pos.
  destruct (Z.lt_trichotomy S' S) as [Hlt|[->|Hgt]].
  - assert (S' = total_memory st) by (apply (IH S' a'); [lia|done]). lia.
  - assert (S | b).
    { destruct (buddy_cases S a HS Hdiv) as [[Hx _]|[Hx _]];
        rewrite Hb, Hx; [apply Z.divide_add_r|apply Z.divide_sub_r];
        done || reflexivity. }
    assert (a' = b) as -> by (by apply (aligned_same_block S)).
    rewrite Hb in Ha'.
    by apply (fl_coalesced _ _ (inv_free _ Hinv) _ _ a Hl Ha).
  - destruct (is_pow2_le_factor S S' HS HS') as [i Hi]; [lia|].
    destruct i as [|i]; [simpl in Hi; lia|]. rewrite pow2_nat_succ in Hi.
    assert (S * 2 | S') by (rewrite Hi; exists (2 ^ Z.of_nat i); lia).
    assert (S * 2 | a') by (etrans; done).
    pose proof (same_cell (S * 2) P a b a' S' ltac:(lia)) as Hcell.
    apply (part_free_free _ Hpart S a S' a'); [done|done|lia|].
    exists a. split; [lia|]. by apply Hcell.
Qed.

Lemma inv_all_free st :
  inv st → allocated st = ∅ →
  ∀ S, free_list st !!! S = if bool_decide (S = total_memory st) then [0] else [].
Proof.
  intros Hinv Hempty S.
  pose proof (inv_partitions _ Hinv) as Hpart.
  pose proof (is_pow2_pos _ (inv_total _ Hinv)) as Htotal.
  case_bool_decide as HS.
  - subst S.
    assert (∀ a, a ∈ free_list st !!! total_memory st → a = 0) as Hzero.
    { intros a Ha. destruct (part_free_range _ Hpart _ _ Ha). lia. }
    destruct (part_no_gap _ Hpart 0 ltac:(lia))
      as [(S' & a' & Ha' & _)|(a' & S' & Ha' & _)];
      [|by rewrite Hempty, lookup_empty in Ha'].
    rewrite (free_blocks_whole st S' a' Hinv Hempty Ha') in Ha'.
    destruct (free_list st !!! total_memory st) as [|x [|y l]] eqn:Hl.
    + by apply elem_of_nil in Ha'.
    + f_equal. apply Hzero. by left.
    + exfalso. apply (part_free_same _ Hpart (total_memory st) 0 1 x y);
        [by rewrite Hl..|done|].
      rewrite (Hzero x), (Hzero y) by (do 2 (left || right)).
      exists 0. lia.
  - destruct (free_list st !!! S) as [|a l] eqn:Hl; [done|].
    destruct HS. apply (free_blocks_whole st S a Hinv Hempty).
    rewrite Hl. by left.
Qed.

(** X8. Complete coalescing: in every reachable state in which nothing is
    allocated, the free list holds the whole memory as one block: the list
    of size [total_memory] is [[0]] and every other list is empty. *)
Theorem all_free_is_one_block st :
  reachable st → allocated st = ∅ →
  ∀ S, free_list st !!! S = if bool_decide (S = total_memory st) then [0] else [].
Proof. intros Hinv%reachable_inv. by apply inv_all_free. Qed.

Lemma all_free_is_one_block_witness :
  free_list (free (allocate fresh_1024 200).2 0 200).2 !!! 512
  = if bool_decide
         (512 = total_memory (free (allocate fresh_1024 200).2 0 200).2)
    then [0] else [].
Proof.
  apply (all_free_is_one_block (free (allocate fresh_1024 200).2 0 200).2).
  - apply reachable_free; [|lia].
    apply reachable_allocate; [|lia]. apply fresh_1024_reachable.
  - by vm_compute.
Defined.

(** X9. A request for the whole memory succeeds exactly when nothing is
    allocated: in every reachable state, [allocate(total_memory)] returns
    address 0 if [allocated] is empty, and raises the no-suitable-block
    error if it is not. *)
Theorem allocate_whole_memory st :
  reachable st →
  (allocated st = ∅ → (allocate st (total_memory st)).1 = Return 0)
  ∧ (allocated st ≠ ∅ →
     (allocate st (total_memory st)).1 = Raise NoSuitableBlock).
Proof.
  intros Hinv%reachable_inv.
  pose proof (inv_partitions _ Hinv) as Hpart.
  pose proof (inv_total _ Hinv) as Htot.
  pose proof (is_pow2_pos _ Htot) as Hpos.
  assert (next_power_of_two (total_memory st) = Some (total_memory st))
    as Hnpot.
  { unfold next_power_of_two.
    by rewrite bool_decide_eq_true_2 by (by apply is_pow2_land). }
  destruct (allocate_cases st _ _ Hinv Hnpot Htot)
    as [[? _]|[(_ & Hnone & Heq)|(_ & j & a & rest & HB & _ & Hl & Heq)]];
    [lia|..]; rewrite Heq; cbn.
  - split; [|done]. intros Hempty. destruct (Hnone (total_memory st)).
    split; [lia|]. rewrite (inv_all_free st Hinv Hempty).
    by rewrite bool_decide_eq_true_2.
  - assert (a ∈ free_list st !!! (total_memory st * 2 ^ Z.of_nat j)) as Ha
      by (rewrite Hl; by left).
    destruct (part_free_range _ Hpart _ _ Ha) as [Ha0 Hahi].
    pose proof (pow2_nat_pos j).
    assert (total_memory st * 2 ^ Z.of_nat j = total_memory st) as HB' by nia.
    rewrite HB' in *. assert (a = 0) as -> by lia.
    split; [done|]. intros Hne. destruct Hne. apply map_empty. intros a'.
    destruct (allocated st !! a') as [S'|] eqn:Ha'; [exfalso|done].
    pose proof (part_alloc_pos _ Hpart _ _ Ha').
    destruct (part_alloc_range _ Hpart _ _ Ha').
    apply (part_free_alloc _ Hpart _ _ _ _ Ha Ha'). exists a'. lia.
Qed.

Lemma allocate_whole_memory_witness :
  (allocated busy_1024 = ∅ →
   (allocate busy_1024 (total_memory busy_1024)).1 = Return 0)
  ∧ (allocated busy_1024 ≠ ∅ →
     (allocate busy_1024 (total_memory busy_1024)).1 = Raise NoSuitableBlock).
Proof. exact (allocate_whole_memory busy_1024 busy_1024_reachable). Defined.

(** * Further properties of [free] *)

(** X10. A block cannot be freed twice: in every state, once
    [free(address, size)] has succeeded, a second [free] of the same address,
    with any size, raises (the invalid-free error, or the too-large error
    when the size does not fit) and changes nothing. *)
Theorem double_free_rejected st address size st' size' :
  free st address size = (Return tt, st') →
  ((free st' address size').1 = Raise InvalidFree
   ∨ (free st' address size').1 = Raise RequestTooLarge_free)
  ∧ (free st' address size').2 = st'.
Proof.
  intros Hcall.
  assert (allocated st' !! address = None) as Hgone.
  { revert Hcall. unfold free.
    destruct (next_power_of_two size) as [r|]; [|done].
    repeat case_bool_decide; try done.
    destruct (coalesce _ _ _ _ _) as [[[s1 a1] fl1]|]; [|done].
    intros [= <-]. cbn. apply lookup_delete_eq. }
  destruct (next_power_of_two_total size') as [r' Hnpot].
  unfold free. rewrite Hnpot.
  case_bool_decide; [by auto|].
  rewrite bool_decide_eq_true_2 by (by rewrite Hgone). by auto.
Qed.

Lemma double_free_rejected_witness :
  ((free (free busy_1024 256 128).2 256 100).1 = Raise InvalidFree
   ∨ (free (free busy_1024 256 128).2 256 100).1 = Raise RequestTooLarge_free)
  ∧ (free (free busy_1024 256 128).2 256 100).2 = (free busy_1024 256 128).2.
Proof.
  apply (double_free_rejected busy_1024 256 128 (free busy_1024 256 128).2 100).
  by vm_compute.
Defined.

(** The block the coalescing loop ends with contains the block it started
    from. *)
Lemma coalesce_contains fuel total size address fl size' address' fl' :
  is_pow2 size → (size | address) →
  coalesce fuel total size address fl = Some (size', address', fl') →
  address' ≤ address ∧ address + size ≤ address' + size'.
Proof.
  revert size address fl.
  induction fuel as [|fuel IH]; intros size address fl Hsize Hdiv;
    rewrite coalesce_unfold.
  - repeat case_bool_decide; [done|..]; intros [= <- <- <-]; lia.
  - case_bool_decide; [|intros [= <- <- <-]; lia].
    case_bool_decide; [|intros [= <- <- <-]; lia].
    pose proof (is_pow2_pos size Hsize) as Hpos.
    destruct (buddy_cases size address Hsize Hdiv) as [[Hx Hd]|[Hx Hd]];
      rewrite Hx.
    + rewrite Z.min_l by lia. intros Hrec.
      apply IH in Hrec; [lia|by apply is_pow2_double|done].
    + rewrite Z.min_r by lia. intros Hrec.
      apply IH in Hrec; [lia|by apply is_pow2_double|done].
Qed.

(** X11. Freed memory is free: in every reachable state, after a successful
    [free(address, size)] the freed block lies inside one block of
    [free_list], and an [allocate] of the same size succeeds right away. *)
Theorem free_makes_room st address size st' :
  reachable st → 0 < size → free st address size = (Return tt, st') →
  ∃ r, next_power_of_two size = Some r
       ∧ (∃ S' a', a' ∈ free_list st' !!! S'
                   ∧ a' ≤ address ∧ address + r ≤ a' + S')
       ∧ ∃ a, (allocate st' size).1 = Return a.
Proof.
  intros Hreach Hsize Hcall. pose proof (reachable_inv _ Hreach) as Hinv.
  assert (inv st') as Hinv'.
  { replace st' with (free st address size).2 by (by rewrite Hcall).
    by apply free_inv. }
  destruct (next_power_of_two_total size) as [r Hnpot].
  destruct (next_power_of_two_is_pow2 _ _ Hsize Hnpot) as (Hr & _).
  destruct (free_cases st address size r Hinv Hnpot Hr)
    as [[_ Heq]|[(_ & _ & Heq)
               |(Hfit & Ha & fuel & size' & address' & fl' & Hco & Heq)]];
    rewrite Heq in Hcall; simplify_eq.
  destruct (inv_alloc _ Hinv _ _ Ha) as (_ & Hdiv & H0 & Hhi).
  destruct (coalesce_contains _ _ _ _ _ _ _ _ Hr Hdiv Hco) as [Hlo Hup].
  assert (address' ∈ free_list
            (mkBuddySystem (total_memory st)
               (<[size' := merge_sort Z.le (fl' !!! size' ++ [address'])]> fl')
               (delete address (allocated st))) !!! size') as Hin.
  { cbn. rewrite lookup_total_insert_eq, merge_sort_Permutation.
    apply elem_of_app. right. by left. }
  exists r. split_and!; [done|by eauto|].
  destruct (allocate_cases _ size r Hinv' Hnpot Hr)
    as [[? _]|[(_ & Hnone & _)|(_ & j & a & rest & _ & _ & _ & ->)]];
    [cbn in *; lia| |by eauto].
  destruct (Hnone size'). split; [lia|].
  intros Hnil. rewrite Hnil in Hin. by apply elem_of_nil in Hin.
Qed.

Lemma free_makes_room_witness :
  ∃ r, next_power_of_two 128 = Some r
       ∧ (∃ S' a', a' ∈ free_list (free busy_1024 256 128).2 !!! S'
                   ∧ a' ≤ 256 ∧ 256 + r ≤ a' + S')
       ∧ ∃ a, (allocate (free busy_1024 256 128).2 128).1 = Return a.
Proof.
  apply (free_makes_room busy_1024 256 128 (free busy_1024 256 128).2).
  - apply busy_1024_reachable.
  - lia.
  - by vm_compute.
Defined.

(** * Further invariants of the reachable states *)

(** X12. An address is recorded once: in every reachable state no list of
    [free_list] has a repeated address, no address is in the lists of two
    sizes, and no free address is a key of [allocated]. *)
Theorem address_recorded_once st :
  reachable st →
  (∀ S, NoDup (free_list st !!! S))
  ∧ (∀ S S' a, a ∈ free_list st !!! S → a ∈ free_list st !!! S' → S = S')
  ∧ (∀ S a, a ∈ free_list st !!! S → allocated st !! a = None).
Proof.
  intros Hinv%reachable_inv. pose proof (inv_partitions _ Hinv) as Hpart.
  split_and!.
  - intros S. apply NoDup_alt. intros i j a Hi Hj.
    destruct (decide (i = j)) as [|Hne]; [done|exfalso].
    assert (a ∈ free_list st !!! S) as Ha by (by eapply list_elem_of_lookup_2).
    pose proof (part_free_pos _ Hpart _ _ Ha).
    apply (part_free_same _ Hpart S i j a a Hi Hj Hne). exists a. lia.
  - intros S S' a Ha Ha'.
    destruct (decide (S = S')) as [|Hne]; [done|exfalso].
    pose proof (part_free_pos _ Hpart _ _ Ha).
    pose proof (part_free_pos _ Hpart _ _ Ha').
    apply (part_free_free _ Hpart S a S' a Ha Ha' Hne). exists a. lia.
  - intros S a Ha.
    destruct (allocated st !! a) as [S'|] eqn:Hal; [exfalso|done].
    pose proof (part_free_pos _ Hpart _ _ Ha).
    pose proof (part_alloc_pos _ Hpart _ _ Hal).
    apply (part_free_alloc _ Hpart S a a S' Ha Hal). exists a. lia.
Qed.

Lemma address_recorded_once_witness :
  (∀ S, NoDup (free_list busy_1024 !!! S))
  ∧ (∀ S S' a, a ∈ free_list busy_1024 !!! S →
       a ∈ free_list busy_1024 !!! S' → S = S')
  ∧ (∀ S a, a ∈ free_list busy_1024 !!! S → allocated busy_1024 !! a = None).
Proof. exact (address_recorded_once busy_1024 busy_1024_reachable). Defined.

(** X13. Only powers of two: in every reachable state [total_memory] is a
    power of two, every key of [free_list] and every size recorded in
    [allocated] is a power of two, and none exceeds [total_memory]. *)
Theorem sizes_are_powers_of_two st :
  reachable st →
  is_pow2 (total_memory st)
  ∧ (∀ S l, free_list st !! S = Some l → is_pow2 S ∧ S ≤ total_memory st)
  ∧ (∀ a S, allocated st !! a = Some S → is_pow2 S ∧ S ≤ total_memory st).
Proof.
  intros Hinv%reachable_inv. split_and!.
  - apply Hinv.
  - apply (fl_keys _ _ (inv_free _ Hinv)).
  - intros a S Ha. destruct (inv_alloc _ Hinv _ _ Ha) as (? & _ & ? & ?).
    split; [done|lia].
Qed.

Lemma sizes_are_powers_of_two_witness :
  is_pow2 (total_memory busy_1024)
  ∧ (∀ S l, free_list busy_1024 !! S = Some l →
       is_pow2 S ∧ S ≤ total_memory busy_1024)
  ∧ (∀ a S, allocated busy_1024 !! a = Some S →
       is_pow2 S ∧ S ≤ total_memory busy_1024).
Proof. exact (sizes_are_powers_of_two busy_1024 busy_1024_reachable). Defined.

(** * The reports *)

Local Instance Z_ge_total : Total Z.ge.
Proof. intros x y. lia. Qed.

Local Instance Z_ge_trans : Transitive Z.ge.
Proof. intros x y z. lia. Qed.

Local Instance pair_le_total : Total pair_le.
Proof. intros [a1 s1] [a2 s2]. unfold pair_le. simpl. lia. Qed.

Local Instance pair_le_trans : Transitive pair_le.
Proof. intros [a1 s1] [a2 s2] [a3 s3]. unfold pair_le. simpl. lia. Qed.

Lemma sumZ_fmap_ext {A} (g1 g2 : A → Z) (l : list A) :
  (∀ p, p ∈ l → g1 p = g2 p) → sumZ (g1 <$> l) = sumZ (map g2 l).
Proof.
  induction l as [|x l IH]; intros Hext; [done|].
  change (g1 x + sumZ (g1 <$> l) = g2 x + sumZ (map g2 l)).
  rewrite (Hext x) by (by left). rewrite IH; [done|].
  intros p Hp. apply Hext. by right.
Qed.

Lemma sumZ_bind {A B} (g : B → Z) (h : A → list B) (l : list A) :
  sumZ (g <$> (l ≫= h)) = sumZ ((λ x, sumZ (g <$> h x)) <$> l).
Proof.
  induction l as [|x l IH]; [done|].
  rewrite bind_cons, fmap_app, sumZ_app, IH. done.
Qed.

Lemma sorted_keys_desc_perm fl : sorted_keys_desc fl ≡ₚ fst <$> map_to_list fl.
Proof. apply merge_sort_Permutation. Qed.

(** Summing a weight over the rows of the report is summing it over the
    free list. *)
Lemma free_rows_weight f st :
  sumZ ((λ row : Z * Z, f row.2 row.1) <$> free_rows st)
  = free_weight f (free_list st).
Proof.
  unfold free_rows. rewrite sumZ_bind, sorted_keys_desc_perm.
  rewrite <- list_fmap_compose. unfold free_weight, map_sum.
  apply sumZ_fmap_ext. intros [S l] Hin%elem_of_map_to_list. simpl.
  rewrite (lookup_total_correct _ _ _ Hin), <- list_fmap_compose.
  unfold bucket_weight. by apply sumZ_fmap_ext.
Qed.

Lemma total_allocated_weight al :
  sumZ (snd <$> map_to_list al) = alloc_weight (λ _ S, S) al.
Proof. unfold alloc_weight, map_sum. by apply sumZ_fmap_ext. Qed.

Lemma elem_of_free_rows st size address :
  (size, address) ∈ free_rows st ↔ address ∈ free_list st !!! size.
Proof.
  unfold free_rows. rewrite list_elem_of_bind. split.
  - intros (k & (a & [= -> ->] & Ha)%list_elem_of_fmap & _). done.
  - intros Ha. exists size. split.
    + apply list_elem_of_fmap. by exists address.
    + rewrite sorted_keys_desc_perm. apply list_elem_of_fmap.
      exists (size, free_list st !!! size). split; [done|].
      apply elem_of_map_to_list. by eapply elem_of_lookup_total.
Qed.

Lemma elem_of_sorted_items al address size :
  (address, size) ∈ sorted_items al ↔ al !! address = Some size.
Proof.
  unfold sorted_items. rewrite merge_sort_Permutation.
  apply elem_of_map_to_list.
Qed.

Lemma StronglySorted_strict {A} (R R' : relation A) (l : list A) :
  (∀ x y, R x y → x ≠ y → R' x y) →
  StronglySorted R l → NoDup l → StronglySorted R' l.
Proof.
  intros HR. induction 1 as [|x l Hl IH Hx]; intros Hnd; [constructor|].
  apply NoDup_cons in Hnd as [Hnotin Hnd]. constructor; [by apply IH|].
  apply Forall_forall. intros y Hy. apply HR.
  - by eapply Forall_forall in Hx.
  - intros ->. done.
Qed.

Lemma free_rows_sorted (keys : list Z) (h : Z → list Z) :
  StronglySorted (λ x y, y < x) keys →
  (∀ k, StronglySorted Z.lt (h k)) →
  StronglySorted row_before
    (keys ≫= λ size, (λ address, (size, address)) <$> h size).
Proof.
  intros Hkeys Hh. induction Hkeys as [|k keys Hkeys IH Hk]; [constructor|].
  rewrite bind_cons. apply StronglySorted_app_2.
  - intros [k1 a1] [k2 a2] (a & [= -> ->] & _)%list_elem_of_fmap
      (k' & (a' & [= -> ->] & _)%list_elem_of_fmap & Hk')%list_elem_of_bind.
    left. simpl. by eapply Forall_forall in Hk.
  - apply (StronglySorted_fmap _ Z.lt); [|done].
    intros a1 a2 Ha. right. done.
  - done.
Qed.

Lemma sorted_items_sorted al :
  StronglySorted (λ p q : Z * Z, p.1 < q.1) (sorted_items al).
Proof.
  assert (NoDup ((sorted_items al).*1)) as Hnd.
  { unfold sorted_items. rewrite merge_sort_Permutation.
    apply NoDup_fst_map_to_list. }
  assert (StronglySorted pair_le (sorted_items al)) as Hs
    by (apply StronglySorted_merge_sort; apply _).
  induction Hs as [|p l Hl IH Hp]; [constructor|].
  rewrite fmap_cons in Hnd. apply NoDup_cons in Hnd as [Hnotin Hnd].
  constructor; [by apply IH|].
  apply Forall_forall. intros q Hq.
  eapply Forall_forall in Hp; [|done].
  destruct Hp as [?|[Heq _]]; [done|].
  destruct Hnotin. rewrite Heq. by apply list_elem_of_fmap_2.
Qed.

(** The report of a fresh allocator of 1024 units. *)
Example str_fresh_1024 :
  __str__ fresh_1024
  = "Total Memory: 1024KB" +:+ newline
    +:+ "Allocated Memory: 0KB" +:+ newline
    +:+ "Free Memory: 1024KB" +:+ newline
    +:+ "Free Blocks:" +:+ newline
    +:+ "Block Size: 1024KB, Allocated: false".
Proof. by vm_compute. Qed.

(** X14. The free memory [__str__] reports: the third line of the report
    gives [total_memory] minus the allocated sizes; in every reachable state
    that figure is the sum of the sizes of the free blocks the report then
    lists. *)
Theorem str_reports_free_memory st :
  reachable st →
  str_lines st !! 2%nat
  = Some ("Free Memory: " +:+ pretty (sumZ (fst <$> free_rows st)) +:+ "KB").
Proof.
  intros Hinv%reachable_inv. unfold str_lines.
  rewrite lookup_app_l by (simpl; lia). simpl. do 3 f_equal.
  pose proof (inv_sum _ Hinv) as Hsum. unfold total_size, weight in Hsum.
  rewrite <- (free_rows_weight (λ _ S, S)), <- total_allocated_weight in Hsum.
  change ((λ row : Z * Z, row.1) <$> free_rows st)
    with (fst <$> free_rows st) in Hsum.
  f_equal. lia.
Qed.

Lemma str_reports_free_memory_witness :
  str_lines busy_1024 !! 2%nat
  = Some ("Free Memory: " +:+ pretty (sumZ (fst <$> free_rows busy_1024))
          +:+ "KB").
Proof. exact (str_reports_free_memory busy_1024 busy_1024_reachable). Defined.

(** X15. [display_memory] prints the blocks of the state and nothing else:
    in every state, each address of each list of [free_list] has its line,
    each entry of [allocated] has its line, and every printed line is one of
    the four fixed lines or the line of such a block. *)
Theorem display_memory_lines st :
  (∀ size address, address ∈ free_list st !!! size →
     free_line (size, address) ∈ display_memory st)
  ∧ (∀ address size, allocated st !! address = Some size →
       allocated_line (address, size) ∈ display_memory st)
  ∧ (∀ line, line ∈ display_memory st →
       line ∈ [ newline +:+ "Memory Details:";
                "Total Memory: " +:+ pretty (total_memory st) +:+ "KB";
                "Allocated Memory:";
                "  No allocated memory blocks.";
                "Free Blocks:" ]
       ∨ (∃ size address, address ∈ free_list st !!! size
                          ∧ line = free_line (size, address))
       ∨ (∃ address size, allocated st !! address = Some size
                          ∧ line = allocated_line (address, size))).
Proof.
  unfold display_memory. split_and!.
  - intros size address Ha%elem_of_free_rows.
    rewrite !elem_of_app. do 3 right. by apply list_elem_of_fmap_2.
  - intros address size Ha.
    rewrite !elem_of_app. right. left.
    rewrite decide_False by (intros Hempty; by rewrite Hempty in Ha).
    by apply list_elem_of_fmap_2, elem_of_sorted_items.
  - intros line. rewrite !elem_of_app.
    intros [Hl|[Hl|[Hl|Hl]]].
    + left. apply list_elem_of_In in Hl. apply list_elem_of_In.
      cbn [In] in *. tauto.
    + destruct (decide (allocated st = ∅)).
      * left. apply list_elem_of_In in Hl. apply list_elem_of_In.
        cbn [In] in *. tauto.
      * apply list_elem_of_fmap in Hl as ([a S] & -> & Hin%elem_of_sorted_items).
        right. right. eauto.
    + left. apply list_elem_of_In in Hl. apply list_elem_of_In.
      cbn [In] in *. tauto.
    + apply list_elem_of_fmap in Hl as ([S a] & -> & Hin%elem_of_free_rows).
      right. left. eauto.
Qed.

(** X16. The order of the report: in every reachable state the free blocks
    that [display_memory] and [__str__] go through come from the largest
    size down and, within a size, from the lowest address up, none twice;
    the allocated blocks come by strictly increasing address. *)
Theorem report_order st :
  reachable st →
  StronglySorted row_before (free_rows st)
  ∧ StronglySorted (λ p q : Z * Z, p.1 < q.1) (sorted_items (allocated st)).
Proof.
  intros Hinv%reachable_inv. pose proof (inv_partitions _ Hinv) as Hpart.
  split; [|apply sorted_items_sorted].
  unfold free_rows. apply free_rows_sorted.
  - apply (StronglySorted_strict Z.ge); [intros x y; lia|..].
    + apply StronglySorted_merge_sort; apply _.
    + rewrite sorted_keys_desc_perm. apply NoDup_fst_map_to_list.
  - intros S. apply (StronglySorted_strict Z.le); [intros x y; lia|..].
    + apply (Sorted_StronglySorted _). rewrite lookup_total_alt.
      destruct (free_list st !! S) as [l|] eqn:Hl; simpl; [|constructor].
      by eapply (fl_sorted _ _ (inv_free _ Hinv)).
    + apply NoDup_alt. intros i j a Hi Hj.
      destruct (decide (i = j)) as [|Hne]; [done|exfalso].
      assert (a ∈ free_list st !!! S) as Ha
        by (by eapply list_elem_of_lookup_2).
      pose proof (part_free_pos _ Hpart _ _ Ha).
      apply (part_free_same _ Hpart S i j a a Hi Hj Hne). exists a. lia.
Qed.

Lemma report_order_witness :
  StronglySorted row_before (free_rows busy_1024)
  ∧ StronglySorted (λ p q : Z * Z, p.1 < q.1)
      (sorted_items (allocated busy_1024)).
Proof. exact (report_order busy_1024 busy_1024_reachable). Defined.

(** A request that is at most a power of two rounds to at most that power
    of two. *)
Lemma next_power_of_two_fits size total :
  0 < size → is_pow2 total → size ≤ total →
  ∃ r, next_power_of_two size = Some r ∧ is_pow2 r ∧ r ≤ total.
Proof.
  intros Hsize (q & Hq & ->) Hfit. exists (2 ^ Z.log2_up size).
  pose proof (next_power_of_two_pos size Hsize) as Hnpot.
  destruct (next_power_of_two_is_pow2 _ _ Hsize Hnpot) as (Hr & _).
  split_and!; try done.
  apply Z.pow_le_mono_r; [lia|]. by apply Z.log2_up_le_pow2.
Qed.

(** * The extremes: nothing allocated, everything allocated *)

(** X17. When nothing is allocated every request that fits is served at
    address 0: in every reachable state with [allocated] empty, [allocate]
    of a positive size up to [total_memory] returns 0. *)
Theorem allocate_first_at_zero st size :
  reachable st → allocated st = ∅ → 0 < size → size ≤ total_memory st →
  (allocate st size).1 = Return 0.
Proof.
  intros Hinv%reachable_inv Hempty Hsize Hfit.
  pose proof (inv_partitions _ Hinv) as Hpart.
  pose proof (inv_all_free st Hinv Hempty) as Hfree.
  destruct (next_power_of_two_fits size _ Hsize (inv_total _ Hinv) Hfit)
    as (r & Hnpot & Hr & Hrfit).
  destruct (allocate_cases st size r Hinv Hnpot Hr)
    as [[? _]|[(_ & Hnone & _)|(_ & j & a & rest & _ & _ & Hl & ->)]];
    [lia|..].
  - destruct (Hnone (total_memory st)). split; [done|].
    by rewrite Hfree, bool_decide_eq_true_2.
  - cbn. f_equal. rewrite Hfree in Hl. case_bool_decide; by simplify_eq.
Qed.

Lemma allocate_first_at_zero_witness :
  (allocate fresh_1024 300).1 = Return 0.
Proof.
  apply (allocate_first_at_zero fresh_1024 300).
  - apply fresh_1024_reachable.
  - done.
  - lia.
  - vm_compute. discriminate.
Defined.

(** X18. Exhaustion: in every reachable state in which the whole memory is
    one allocated block, every list of [free_list] is empty, and [allocate]
    of any positive size that fits raises the no-suitable-block error. *)
Theorem exhausted st :
  reachable st → allocated st !! 0 = Some (total_memory st) →
  (∀ S, free_list st !!! S = [])
  ∧ (∀ size, 0 < size → size ≤ total_memory st →
       (allocate st size).1 = Raise NoSuitableBlock).
Proof.
  intros Hinv%reachable_inv Hwhole.
  pose proof (inv_partitions _ Hinv) as Hpart.
  assert (∀ S, free_list st !!! S = []) as Hnil.
  { intros S. destruct (free_list st !!! S) as [|a l] eqn:Hl; [done|exfalso].
    assert (a ∈ free_list st !!! S) as Ha by (rewrite Hl; by left).
    pose proof (part_free_pos _ Hpart _ _ Ha).
    destruct (part_free_range _ Hpart _ _ Ha).
    apply (part_free_alloc _ Hpart _ _ _ _ Ha Hwhole). exists a. lia. }
  split; [done|]. intros size Hsize Hfit.
  destruct (next_power_of_two_fits size _ Hsize (inv_total _ Hinv) Hfit)
    as (r & Hnpot & Hr & Hrfit).
  destruct (allocate_cases st size r Hinv Hnpot Hr)
    as [[? _]|[(_ & _ & ->)|(_ & j & a & rest & [_ Hne] & _)]];
    [lia|done|]. by rewrite Hnil in Hne.
Qed.

Lemma exhausted_witness :
  (∀ S, free_list (allocate fresh_1024 1024).2 !!! S = [])
  ∧ (∀ size, 0 < size → size ≤ total_memory (allocate fresh_1024 1024).2 →
       (allocate (allocate fresh_1024 1024).2 size).1 = Raise NoSuitableBlock).
Proof.
  apply (exhausted (allocate fresh_1024 1024).2).
  - apply reachable_allocate; [apply fresh_1024_reachable|lia].
  - by vm_compute.
Defined.

(** X19. [free] succeeds exactly when it should: in every state and for
    every positive size that rounds to [r], the call returns if and only if
    [r] is at most [total_memory] and the address is recorded in [allocated]
    with size [r]; it then removes that entry and no other. *)
Theorem free_succeeds_iff st address size :
  0 < size →
  ∃ r, next_power_of_two size = Some r
       ∧ ((free st address size).1 = Return tt
          ↔ r ≤ total_memory st ∧ allocated st !! address = Some r)
       ∧ ((free st address size).1 = Return tt →
          allocated (free st address size).2 = delete address (allocated st)).
Proof.
  intros Hsize. destruct (next_power_of_two_total size) as [r Hnpot].
  destruct (next_power_of_two_is_pow2 _ _ Hsize Hnpot) as (Hr%is_pow2_pos & _).
  exists r. split; [done|]. unfold free. rewrite Hnpot.
  case_bool_decide as Hbig; [simpl; split; [split; [done|lia]|done]|].
  case_bool_decide as Hentry; [simpl; split; [split; [done|tauto]|done]|].
  destruct (coalesce_total
              (Z.to_nat (total_memory st) + length (free_list st !!! 0))
              (total_memory st) r address (free_list st))
    as [[[size' address'] fl'] ->]; [done|by apply coalesce_fuel|].
  simpl. split; [|done]. split; [|done]. intros _. split; [lia|done].
Qed.

Lemma free_succeeds_iff_witness :
  ∃ r, next_power_of_two 100 = Some r
       ∧ ((free busy_1024 256 100).1 = Return tt
          ↔ r ≤ total_memory busy_1024 ∧ allocated busy_1024 !! 256 = Some r)
       ∧ ((free busy_1024 256 100).1 = Return tt →
          allocated (free busy_1024 256 100).2
          = delete 256 (allocated busy_1024)).
Proof. apply (free_succeeds_iff busy_1024 256 100). lia. Defined.

(** * A request of size zero *)

(** With a request of 0 the split loop goes one round further than a split
    down to size 1: its last round pushes the address of the block itself
    under size 0. *)
Lemma split_zero_eq (q : nat) : ∀ fuel a fl,
  (q < fuel)%nat →
  split fuel (2 ^ Z.of_nat q) 0 a fl
  = Some (push 0 (a + 0) (split_spec q 1 a fl)).
Proof.
  induction q as [|q IH]; intros fuel a fl Hfuel;
    (destruct fuel as [|fuel]; [lia|]); rewrite split_S.
  - change (2 ^ Z.of_nat 0) with 1. rewrite bool_decide_eq_true_2 by lia.
    change (1 `div` 2) with 0. by destruct fuel.
  - pose proof (pow2_nat_pos q). pose proof (pow2_nat_pos (S q)).
    rewrite bool_decide_eq_true_2 by lia.
    rewrite pow2_nat_succ, Z.div_mul by lia.
    rewrite IH by lia. simpl split_spec. by rewrite Z.mul_1_l.
Qed.

Section zero_request.
Variable f : Z → Z → Z.
Hypothesis f_split : ∀ a S, 0 < S → f a (S * 2) = f a S + f (a + S) S.

(** The weight of the state after [allocate(0)] has taken the block at
    [a]: the unit at [a] is gone, and two blocks of size 0 have appeared. *)
Lemma allocate_zero_weight st (q : nat) a rest :
  allocated st !! a = None →
  free_list st !!! (2 ^ Z.of_nat q) = a :: rest →
  weight f (mkBuddySystem (total_memory st)
              (push 0 (a + 0)
                 (split_spec q 1 a
                    (<[2 ^ Z.of_nat q := rest]> (free_list st))))
              (<[a := 0]> (allocated st)))
  = weight f st - f a 1 + f (a + 0) 0 + f a 0.
Proof.
  intros Hnew Hl. unfold weight. cbn [free_list allocated].
  pose proof (split_spec_weight f f_split q 1 a
                (<[2 ^ Z.of_nat q := rest]> (free_list st)) ltac:(lia))
    as Hsplit.
  rewrite Z.mul_1_l, free_weight_insert, Hl, bucket_weight_cons in Hsplit.
  rewrite free_weight_push, alloc_weight_insert by done. lia.
Qed.
End zero_request.

(** X20. A request of size 0 is not rejected and loses one unit of memory:
    in every reachable state with a free block, [allocate(0)] returns an
    address [a], records it with size 0 and also lists it as free under
    size 0; afterwards the unit at [a] belongs to no block, and the sizes of
    all blocks add up to [total_memory - 1]. *)
Theorem allocate_zero_loses_a_unit st :
  reachable st → (∃ S, free_list st !!! S ≠ []) →
  ∃ a st',
    allocate st 0 = (Return a, st')
    ∧ allocated st' !! a = Some 0
    ∧ a ∈ free_list st' !!! 0
    ∧ cover_count a st' = 0
    ∧ total_size st' = total_memory st - 1.
Proof.
  intros Hinv%reachable_inv (S0 & HS0).
  pose proof (inv_partitions _ Hinv) as Hpart.
  pose proof (is_pow2_pos _ (inv_total _ Hinv)) as Htotal.
  unfold allocate. change (next_power_of_two 0) with (Some 0). cbv beta iota.
  rewrite bool_decide_eq_false_2 by lia.
  destruct (list_find _ _) as [[i B]|] eqn:Hfind; last first.
  { destruct (first_fit_None _ _ Hfind S0). split; [|done].
    pose proof (lookup_total_nonempty _ _ HS0) as Hl.
    destruct (fl_keys _ _ (inv_free _ Hinv) _ _ Hl) as [?%is_pow2_pos _]. lia. }
  apply first_fit_Some in Hfind as [[_ Hne] _].
  pose proof (lookup_total_nonempty _ _ Hne) as Hl.
  destruct (fl_keys _ _ (inv_free _ Hinv) _ _ Hl) as [(k & Hk & ->) _].
  remember (Z.to_nat k) as q eqn:Hq'.
  assert (k = Z.of_nat q) as -> by lia. clear Hq' Hk Hl.
  destruct (free_list st !!! (2 ^ Z.of_nat q)) as [|a rest] eqn:Hlist; [done|].
  assert (a ∈ free_list st !!! (2 ^ Z.of_nat q)) as Ha
    by (rewrite Hlist; by left).
  pose proof (free_head_not_allocated st _ a rest Hinv Hlist) as Hnew.
  destruct (part_free_range _ Hpart _ _ Ha) as [Ha0 Hahi].
  pose proof (pow2_nat_pos q) as Hq. pose proof (pow2_nat_gt_lin q) as Hlin.
  rewrite split_zero_eq by lia.
  eexists _, _. split; [done|]. split_and!.
  - apply lookup_insert_eq.
  - cbn [free_list]. rewrite lookup_total_push_eq, Z.add_0_r.
    apply elem_of_app. right. by left.
  - unfold cover_count.
    rewrite (allocate_zero_weight _ (covers_split a) st q a rest Hnew Hlist).
    pose proof (inv_cover _ Hinv a) as Hc. unfold cover_count in Hc.
    rewrite bool_decide_eq_true_2 in Hc by lia.
    rewrite Hc. unfold covers. repeat case_bool_decide; lia.
  - unfold total_size.
    assert (∀ a S : Z, 0 < S → S * 2 = S + S) as Hsize by (intros; lia).
    rewrite (allocate_zero_weight (λ _ S, S) Hsize st q a rest Hnew Hlist).
    pose proof (inv_sum _ Hinv) as Hs. unfold total_size in Hs. lia.
Qed.

Lemma allocate_zero_loses_a_unit_witness :
  ∃ a st',
    allocate busy_1024 0 = (Return a, st')
    ∧ allocated st' !! a = Some 0
    ∧ a ∈ free_list st' !!! 0
    ∧ cover_count a st' = 0
    ∧ total_size st' = total_memory busy_1024 - 1.
Proof.
  apply (allocate_zero_loses_a_unit busy_1024 busy_1024_reachable).
  exists 512. vm_compute. discriminate.
Defined.

(** * The round trip and the allocated blocks *)

(** X21. The round trip leaves [allocated] as it was: in every reachable
    state, when [allocate] of a positive size returns an address, freeing
    that address with the same size right away succeeds and gives back
    exactly the dictionary [allocated] of before the allocation. *)
Theorem round_trip_allocated st size a st1 :
  reachable st → 0 < size → allocate st size = (Return a, st1) →
  (free st1 a size).1 = Return tt
  ∧ allocated (free st1 a size).2 = allocated st.
Proof.
  intros Hreach Hsize Hcall. pose proof (reachable_inv _ Hreach) as Hinv.
  assert (inv st1) as Hinv1.
  { replace st1 with (allocate st size).2 by (by rewrite Hcall).
    by apply allocate_inv. }
  destruct (next_power_of_two_total size) as [r Hnpot].
  destruct (next_power_of_two_is_pow2 _ _ Hsize Hnpot) as (Hr & _).
  destruct (allocate_cases st size r Hinv Hnpot Hr)
    as [[_ Heq]|[(_ & _ & Heq)|(Hfit & j & a' & rest & _ & _ & Hl & Heq)]];
    rewrite Heq in Hcall; simplify_eq.
  pose proof (free_head_not_allocated st _ a rest Hinv Hl) as Hnew.
  destruct (free_cases _ a size r Hinv1 Hnpot Hr)
    as [[? _]|[(_ & Hne & _)|(_ & _ & fuel & s' & a' & fl' & _ & ->)]];
    cbn in *; [lia|by rewrite lookup_insert_eq in Hne|].
  split; [done|]. by apply delete_insert_id.
Qed.

Lemma round_trip_allocated_witness :
  (free (allocate busy_1024 60).2 384 60).1 = Return tt
  ∧ allocated (free (allocate busy_1024 60).2 384 60).2 = allocated busy_1024.
Proof.
  apply (round_trip_allocated busy_1024 60 384 (allocate busy_1024 60).2).
  - apply busy_1024_reachable.
  - lia.
  - by vm_compute.
Defined.
